(** * Render.hpp: ray casting of spheres with Phong shading

    A shallow embedding of [class Render] (src/include/Render.hpp) and the
    properties its specification states about it.

    - [double] is IEEE-754 binary64: Rocq's primitive [float].
    - [int] is a 32-bit two's complement integer: a [Z] with its wrap-around
      written out ([wrap32]).
    - [Eigen::Vector4d] is a record of four doubles, with Eigen's documented
      coefficient-wise operations.
    - The image, the standard error stream and the files written are explicit
      state ([State], [Image]).  *)

From Stdlib Require Import ZArith Floats Uint63 Lia.
From stdpp Require Import gmap strings list fin_maps.

Set Warnings "-inexact-float".
Local Open Scope Z_scope.

(* ===================================================================== *)
(** * Scalars *)
(* ===================================================================== *)

(** [int x] converted to [double] (exact: |x| < 2^31 < 2^53). *)
Definition int2double (x : Z) : float :=
  if x <? 0 then PrimFloat.opp (PrimFloat.of_uint63 (Uint63.of_Z (- x)))
  else PrimFloat.of_uint63 (Uint63.of_Z x).

(** Two's complement wrap-around of a 32-bit [int]. *)
Definition wrap32 (z : Z) : Z := (z + 2 ^ 31) mod 2 ^ 32 - 2 ^ 31.

Definition INT_MAX : Z := 2 ^ 31 - 1.
Definition INT_MIN : Z := - 2 ^ 31.

Definition int_sub (a b : Z) : Z := wrap32 (a - b).
(** C++ [/] on [int] truncates toward zero. *)
Definition int_div (a b : Z) : Z := wrap32 (Z.quot a b).

(** [std::numeric_limits<double>::max()]. *)
Definition DBL_MAX : float := 0x1.fffffffffffffp+1023%float.

(** [std::numbers::pi]. *)
Definition pi : float := 0x1.921fb54442d18p+1%float.

(** <cmath> is not part of Rocq's primitive floats: [std::tan] and [std::pow]
    are an interface the development is parametric in. *)
Class Libm := {
  tan : float -> float;
  pow : float -> float -> float
}.

(* ===================================================================== *)
(** * Eigen::Vector4d *)
(* ===================================================================== *)

Record Vector4d := mkVec { vx : float; vy : float; vz : float; vw : float }.

Module Vec.
Local Open Scope float_scope.

Definition add (a b : Vector4d) : Vector4d :=
  mkVec (vx a + vx b) (vy a + vy b) (vz a + vz b) (vw a + vw b).

Definition sub (a b : Vector4d) : Vector4d :=
  mkVec (vx a - vx b) (vy a - vy b) (vz a - vz b) (vw a - vw b).

(** [k * v] *)
Definition scale (k : float) (v : Vector4d) : Vector4d :=
  mkVec (k * vx v) (k * vy v) (k * vz v) (k * vw v).

(** [v / k] *)
Definition divs (v : Vector4d) (k : float) : Vector4d :=
  mkVec (vx v / k) (vy v / k) (vz v / k) (vw v / k).

(** [a.dot(b)]; the four products are added from left to right. *)
Definition dot (a b : Vector4d) : float :=
  vx a * vx b + vy a * vy b + vz a * vz b + vw a * vw b.

Definition squaredNorm (a : Vector4d) : float := dot a a.

(** [a.norm()] *)
Definition norm (a : Vector4d) : float := PrimFloat.sqrt (squaredNorm a).

(** [a.normalized()]: Eigen divides by the norm when the squared norm is
    positive and returns the vector unchanged otherwise. *)
Definition normalized (a : Vector4d) : Vector4d :=
  let z := squaredNorm a in
  if 0 <? z then divs a (PrimFloat.sqrt z) else a.

(** [a.cross3(b)]: cross product of the x, y, z coefficients; the fourth
    coefficient of the result is 0. *)
Definition cross3 (a b : Vector4d) : Vector4d :=
  mkVec (vy a * vz b - vz a * vy b)
        (vz a * vx b - vx a * vz b)
        (vx a * vy b - vy a * vx b)
        0.
End Vec.

(* ===================================================================== *)
(** * Scene entities (Structs.hpp, Obj.hpp) *)
(* ===================================================================== *)

(** Modelled from the spec: [Color] is declared in Structs.hpp, which is not
    among the sources.  "Color: triple of floating-point channel intensities
    ... Supports scalar multiplication and component-wise
    addition/multiplication". *)
Record Color := mkColor { cr : float; cg : float; cb : float }.

Module Col.
Local Open Scope float_scope.
(** [k * c] *)
Definition scale (k : float) (c : Color) : Color :=
  mkColor (k * cr c) (k * cg c) (k * cb c).
(** [a + b] *)
Definition add (a b : Color) : Color :=
  mkColor (cr a + cr b) (cg a + cg b) (cb a + cb b).
(** [a * b] *)
Definition mul (a b : Color) : Color :=
  mkColor (cr a * cr b) (cg a * cg b) (cb a * cb b).
End Col.

(** Modelled from the spec: [Light], [Camera] and [Ray] are declared in
    headers that are not among the sources; the fields are the ones
    Render.hpp reads. *)
Record Light := mkLight { light_pos : Vector4d; light_color : Color }.

Record Camera := mkCamera {
  cam_pos : Vector4d;
  cam_screenCenter : Vector4d;
  cam_up : Vector4d;
  cam_fov : float
}.

Record Ray := mkRay { ray_origin : Vector4d; ray_dir : Vector4d }.

(** Modelled from the spec: [Sphere] is declared in Obj.hpp, which is not
    among the sources.  "Sphere: center, radius, color (albedo)". *)
Record Sphere := mkSphere {
  sph_center : Vector4d;
  sph_radius : float;
  sph_color : Color
}.

(** The member functions of [Sphere] that Render.hpp calls.  Their bodies
    are in Obj.hpp; the renderer is parametric in them.
    [intersection] returns [std::pair<double, std::optional<Vector4d>>]. *)
Class SphereOps := {
  intersection : Sphere -> Ray -> float * option Vector4d;
  normalVector : Sphere -> Vector4d -> Vector4d;
  getColor : Sphere -> Color
}.

(* ===================================================================== *)
(** * Shading: Render::myCos and Render::calcColor *)
(* ===================================================================== *)

Module Render.
Section Shading.
Context {libm : Libm} {sops : SphereOps}.
Local Open Scope float_scope.

Definition ka : float := 0.1.
Definition kd : float := 0.6.
Definition ks : float := 0.3.
Definition m : float := 8.0.

(** [double Render::myCos(Vector4d a, Vector4d b, bool cut)] *)
Definition myCos (a b : Vector4d) (cut : bool) : float :=
  let cos := Vec.dot a b / Vec.norm a / Vec.norm b in
  if cut && (cos <? 0.0) then 0.0 else cos.

(** One iteration of the [for (auto light : lights)] loop of [calcColor]:
    the new value of [c]. *)
Definition calcColor_step (sectionPoint cameraPos : Vector4d)
    (nearestSphere : Sphere) (N : Vector4d) (c : Color) (light : Light)
    : Color :=
  let L := Vec.normalized (Vec.sub (light_pos light) sectionPoint) in
  let R := Vec.sub (Vec.scale (2 * myCos N L false) N) L in
  let first := kd * myCos N L true in
  let obs := Vec.normalized (Vec.sub cameraPos sectionPoint) in
  let second := ks * pow (myCos obs R true) m in
  Col.add c (Col.mul (Col.scale (first + second) (light_color light))
                     (getColor nearestSphere)).

Fixpoint calcColor_loop (sectionPoint cameraPos : Vector4d)
    (nearestSphere : Sphere) (N : Vector4d) (lights : list Light)
    (c : Color) : Color :=
  match lights with
  | [] => c
  | light :: rest =>
      calcColor_loop sectionPoint cameraPos nearestSphere N rest
        (calcColor_step sectionPoint cameraPos nearestSphere N c light)
  end.

(** [Color Render::calcColor(sectionPoint, cameraPos, nearestSphere, lights)] *)
Definition calcColor (sectionPoint cameraPos : Vector4d)
    (nearestSphere : Sphere) (lights : list Light) : Color :=
  let c := Col.scale ka (getColor nearestSphere) in
  let N := normalVector nearestSphere sectionPoint in
  calcColor_loop sectionPoint cameraPos nearestSphere N lights c.
End Shading.
End Render.

(* ===================================================================== *)
(** * The image sink (Bmp.hpp) and the state a render call acts on *)
(* ===================================================================== *)

(** Modelled from the spec: [Pixel] and [Image] are declared in Bmp.hpp,
    which is not among the sources.  "Image (external): width x height grid
    of pixels; mutated one pixel at a time"; "setPixel(x, y, Color) must
    accept any computed color"; "save(path)".  An [Image] records the cells
    [setPixel] was called on; every other cell has the sink's default value. *)
Record Pixel := mkPixel { pixel_color : Color }.

Record Image := mkImage {
  img_width : Z;
  img_height : Z;
  img_pixels : gmap (Z * Z) Pixel
}.

(** [Image img(width, height)] *)
Definition Image_new (width height : Z) : Image := mkImage width height ∅.

(** [img.setPixel(x, y, p)] *)
Definition setPixel (x y : Z) (p : Pixel) (img : Image) : Image :=
  mkImage (img_width img) (img_height img) (<[(x, y) := p]> (img_pixels img)).

(** The objects [Render] holds references to. *)
Record Scene := mkScene {
  camera : Camera;
  objs : list Sphere;
  lights : list Light
}.

(** What a call of [renderImage] can read and write: the referents of the
    three reference members, the standard error stream and the files. *)
Record State := mkState {
  scene : Scene;
  cerr : list string;
  disk : gmap string Image
}.

(** [img.saveToBmp(path)], when the file can be written: the file at [path]
    then holds the image. *)
Definition saveToBmp (img : Image) (path : string) (st : State) : State :=
  mkState (scene st) (cerr st) (<[path := img]> (disk st)).

(** [std::cerr << msg << std::endl]: one more line on the error stream. *)
Definition cerr_endl (msg : string) (st : State) : State :=
  mkState (scene st) (cerr st ++ [msg]) (disk st).

(** [enum struct RenderMode { CPU, TBB }]: a value of the underlying type
    [int]; values other than the two enumerators reach [default:]. *)
Definition RenderMode := Z.
Definition CPU : RenderMode := 0.
Definition TBB : RenderMode := 1.

(** [for (int k = lo; k < hi; k++) body(k)] *)
Definition for_int {S : Type} (lo hi : Z) (body : Z -> S -> S) (s : S) : S :=
  foldl (fun s k => body k s) s (seqZ lo (hi - lo)).

(** The result of the scan over [objs]: [nearestSphere] (an index into
    [objs] and the sphere it points to) and [sectionPoint].  The two
    variables are assigned together, and [sectionPoint] is uninitialised
    exactly while [nearestSphere] is [nullptr]. *)
Record Hit := mkHit {
  hit_index : nat;
  hit_sphere : Sphere;
  hit_point : Vector4d
}.

(* ===================================================================== *)
(** * Render::renderImageCPU (lines 95-144) *)
(* ===================================================================== *)

Module CPU.
Section CPU.
Context {libm : Libm} {sops : SphereOps}.
Local Open Scope float_scope.

(** Lines 101-108: the locals computed once, before the loops. *)
Definition centralRay (cam : Camera) : Vector4d :=
  Vec.sub (cam_screenCenter cam) (cam_pos cam).

Definition screenRight (cam : Camera) : Vector4d :=
  Vec.normalized (Vec.cross3 (centralRay cam) (cam_up cam)).

Definition screenUp (cam : Camera) : Vector4d :=
  Vec.normalized (Vec.cross3 (screenRight cam) (centralRay cam)).

Definition fov (cam : Camera) : float :=
  cam_fov cam * (pi / int2double 180).

(** The divisor of [step]: the [int] expression [(width / 2)]. *)
Definition step_divisor (width : Z) : Z := int_div width 2.

Definition step (cam : Camera) (width : Z) : float :=
  tan (fov cam / int2double 2) * Vec.norm (centralRay cam)
  / int2double (step_divisor width).

(** Lines 113-117: the ray of pixel [(i, j)], from the locals of the
    enclosing function. *)
Definition ray (cam : Camera) (width height : Z)
    (screenRight screenUp : Vector4d) (step : float) (i j : Z) : Ray :=
  let x := int_sub i (int_div width 2) in
  let y := int_sub j (int_div height 2) in
  let pointOnScreen :=
    Vec.add (Vec.add (cam_screenCenter cam)
                     (Vec.scale (int2double x * step) screenRight))
            (Vec.scale (int2double y * step) screenUp) in
  mkRay (cam_pos cam) (Vec.normalized (Vec.sub pointOnScreen (cam_pos cam))).

(** One iteration of the loop over [objs] (lines 124-133). *)
Definition scan_step (r : Ray) (i : nat) (s : Sphere)
    (acc : float * option Hit) : float * option Hit :=
  let '(z_buffor, nearest) := acc in
  let res := intersection s r in
  match snd res with
  | Some p =>
      if fst res <? z_buffor then (fst res, Some (mkHit i s p))
      else (z_buffor, nearest)
  | None => (z_buffor, nearest)
  end.

(** [for (size_t i = 0; i < objs.size(); i++)], from index [i] on. *)
Fixpoint scan (r : Ray) (i : nat) (objs : list Sphere)
    (acc : float * option Hit) : float * option Hit :=
  match objs with
  | [] => acc
  | s :: rest => scan r (S i) rest (scan_step r i s acc)
  end.

(** Lines 119-134: the scan from [z_buffor = max], [nearestSphere = nullptr]. *)
Definition nearest (r : Ray) (objs : list Sphere) : float * option Hit :=
  scan r 0%nat objs (DBL_MAX, None).

(** The body of the two nested loops (lines 113-140). *)
Definition body (width height : Z) (screenRight screenUp : Vector4d)
    (step : float) (i j : Z) (s : State * Image) : State * Image :=
  let '(st, img) := s in
  let r := ray (camera (scene st)) width height screenRight screenUp step i j in
  match snd (nearest r (objs (scene st))) with
  | Some h =>
      let c := Render.calcColor (hit_point h) (cam_pos (camera (scene st)))
                 (hit_sphere h) (lights (scene st)) in
      (st, setPixel i j (mkPixel c) img)
  | None => (st, img)
  end.

(** The ray of pixel [(i, j)] in a call on the camera [cam]. *)
Definition pixel_ray (cam : Camera) (width height : Z) (i j : Z) : Ray :=
  ray cam width height (screenRight cam) (screenUp cam) (step cam width) i j.

(** The color such a call computes for pixel [(i, j)] when its ray hits a
    sphere: what [body] passes to [setPixel]. *)
Definition pixel (sc : Scene) (width height : Z) (i j : Z) : option Color :=
  let r := pixel_ray (camera sc) width height i j in
  match snd (nearest r (objs sc)) with
  | Some h => Some (Render.calcColor (hit_point h) (cam_pos (camera sc))
                      (hit_sphere h) (lights sc))
  | None => None
  end.

Definition renderImageCPU (width height : Z) (path : string) (st : State)
    : State :=
  let img := Image_new width height in
  let screenRight := screenRight (camera (scene st)) in
  let screenUp := screenUp (camera (scene st)) in
  let step := step (camera (scene st)) width in
  let '(st', img') :=
    for_int 0 width (fun i =>
      for_int 0 height (fun j =>
        body width height screenRight screenUp step i j))
      (st, img) in
  saveToBmp img' path st'.
End CPU.
End CPU.

(* ===================================================================== *)
(** * tbb::parallel_for over a blocked_range<int> *)
(* ===================================================================== *)

(** A run is observed as the sequence of its atomic steps.  Two tasks that
    run at the same time contribute their steps in any interleaving that
    keeps the order within each task.  A step of [renderImageTBB] is one
    execution of the innermost loop body: it reads the scene, which no step
    writes, and writes one cell of the image, which no other step touches
    (that writes to distinct cells do not disturb each other is the
    contract of the image sink). *)
Inductive interleave {A : Type} : list A -> list A -> list A -> Prop :=
| interleave_nil : interleave [] [] []
| interleave_l x t1 t2 t :
    interleave t1 t2 t -> interleave (x :: t1) t2 (x :: t)
| interleave_r x t1 t2 t :
    interleave t1 t2 t -> interleave t1 (x :: t2) (x :: t).

(** [for (int k = b; k < e; ++k) g(k)] where the run of [g(k)] is itself
    one of several possible step sequences: the iterations follow each
    other. *)
Inductive for_steps {A : Type} (g : Z -> list A -> Prop)
    : Z -> Z -> list A -> Prop :=
| for_steps_done b e : e <= b -> for_steps g b e []
| for_steps_iter b e t1 t2 :
    b < e -> g b t1 -> for_steps g (b + 1) e t2 ->
    for_steps g b e (t1 ++ t2).

(** [tbb::parallel_for(tbb::blocked_range<int>(lo, hi), f)]: an empty range
    runs nothing; otherwise the range is either handed to [f] whole, or
    split in two non-empty ranges that are processed as two tasks, joined
    at the end.  [f b e t] reads: [t] is a step sequence of [f] on the
    range with [begin() = b] and [end() = e]. *)
Inductive parallel_for {A : Type} (f : Z -> Z -> list A -> Prop)
    : Z -> Z -> list A -> Prop :=
| parallel_for_empty lo hi : hi <= lo -> parallel_for f lo hi []
| parallel_for_run lo hi t : lo < hi -> f lo hi t -> parallel_for f lo hi t
| parallel_for_split lo mid hi t1 t2 t :
    lo < mid -> mid < hi ->
    parallel_for f lo mid t1 -> parallel_for f mid hi t2 ->
    interleave t1 t2 t ->
    parallel_for f lo hi t.

(* ===================================================================== *)
(** * Render::renderImageTBB (lines 146-199) *)
(* ===================================================================== *)

Module TBB.
Section TBB.
Context {libm : Libm} {sops : SphereOps}.
Local Open Scope float_scope.

(** Lines 152-159: the locals computed once, before the loops. *)
Definition centralRay (cam : Camera) : Vector4d :=
  Vec.sub (cam_screenCenter cam) (cam_pos cam).

Definition screenRight (cam : Camera) : Vector4d :=
  Vec.normalized (Vec.cross3 (centralRay cam) (cam_up cam)).

Definition screenUp (cam : Camera) : Vector4d :=
  Vec.normalized (Vec.cross3 (screenRight cam) (centralRay cam)).

Definition fov (cam : Camera) : float :=
  cam_fov cam * (pi / int2double 180).

Definition step_divisor (width : Z) : Z := int_div width 2.

Definition step (cam : Camera) (width : Z) : float :=
  tan (fov cam / int2double 2) * Vec.norm (centralRay cam)
  / int2double (step_divisor width).

(** Lines 166-170: the ray of pixel [(i, j)], from the locals of the
    enclosing function. *)
Definition ray (cam : Camera) (width height : Z)
    (screenRight screenUp : Vector4d) (step : float) (i j : Z) : Ray :=
  let x := int_sub i (int_div width 2) in
  let y := int_sub j (int_div height 2) in
  let pointOnScreen :=
    Vec.add (Vec.add (cam_screenCenter cam)
                     (Vec.scale (int2double x * step) screenRight))
            (Vec.scale (int2double y * step) screenUp) in
  mkRay (cam_pos cam) (Vec.normalized (Vec.sub pointOnScreen (cam_pos cam))).

(** One iteration of the loop over [objs] (lines 177-186). *)
Definition scan_step (r : Ray) (i : nat) (s : Sphere)
    (acc : float * option Hit) : float * option Hit :=
  let '(z_buffor, nearest) := acc in
  let res := intersection s r in
  match snd res with
  | Some p =>
      if fst res <? z_buffor then (fst res, Some (mkHit i s p))
      else (z_buffor, nearest)
  | None => (z_buffor, nearest)
  end.

Fixpoint scan (r : Ray) (i : nat) (objs : list Sphere)
    (acc : float * option Hit) : float * option Hit :=
  match objs with
  | [] => acc
  | s :: rest => scan r (S i) rest (scan_step r i s acc)
  end.

Definition nearest (r : Ray) (objs : list Sphere) : float * option Hit :=
  scan r 0%nat objs (DBL_MAX, None).

(** The body of the innermost loop (lines 166-193): one atomic step of the
    parallel run, for one pixel.  It reads the scene and writes one cell of
    the image. *)
Definition body (width height : Z) (screenRight screenUp : Vector4d)
    (step : float) (i j : Z) (s : State * Image) : State * Image :=
  let '(st, img) := s in
  let r := ray (camera (scene st)) width height screenRight screenUp step i j in
  match snd (nearest r (objs (scene st))) with
  | Some h =>
      let c := Render.calcColor (hit_point h) (cam_pos (camera (scene st)))
                 (hit_sphere h) (lights (scene st)) in
      (st, setPixel i j (mkPixel c) img)
  | None => (st, img)
  end.

(** The ray of pixel [(i, j)] in a call on the camera [cam]. *)
Definition pixel_ray (cam : Camera) (width height : Z) (i j : Z) : Ray :=
  ray cam width height (screenRight cam) (screenUp cam) (step cam width) i j.

(** The color such a call computes for pixel [(i, j)] when its ray hits a
    sphere: what [body] passes to [setPixel]. *)
Definition pixel (sc : Scene) (width height : Z) (i j : Z) : option Color :=
  let r := pixel_ray (camera sc) width height i j in
  match snd (nearest r (objs sc)) with
  | Some h => Some (Render.calcColor (hit_point h) (cam_pos (camera sc))
                      (hit_sphere h) (lights sc))
  | None => None
  end.

(** The inner lambda on the range [r2] of indices [j]. *)
Definition inner (i : Z) (b e : Z) (t : list (Z * Z)) : Prop :=
  for_steps (fun j t => t = [(i, j)]) b e t.

(** The outer lambda on the range [r] of indices [i]: for each [i] a
    nested [parallel_for] over [0, height). *)
Definition outer (height : Z) (b e : Z) (t : list (Z * Z)) : Prop :=
  for_steps (fun i t => parallel_for (inner i) 0 height t) b e t.

(** The pixels in the order in which one run of the two nested
    [parallel_for] processes them. *)
Definition schedule (width height : Z) (t : list (Z * Z)) : Prop :=
  parallel_for (outer height) 0 width t.

(** The run along a schedule. *)
Definition run (width height : Z) (screenRight screenUp : Vector4d)
    (step : float) (t : list (Z * Z)) (s : State * Image) : State * Image :=
  foldl (fun s ij =>
           body width height screenRight screenUp step (fst ij) (snd ij) s)
        s t.

(** [st'] is a state in which a call of [renderImageTBB] from [st] can
    end. *)
Definition renderImageTBB (width height : Z) (path : string)
    (st st' : State) : Prop :=
  exists t, schedule width height t /\
    let img := Image_new width height in
    let screenRight := screenRight (camera (scene st)) in
    let screenUp := screenUp (camera (scene st)) in
    let step := step (camera (scene st)) width in
    let '(st1, img') := run width height screenRight screenUp step t (st, img) in
    st' = saveToBmp img' path st1.
End TBB.
End TBB.

(* ===================================================================== *)
(** * The pixels a run visits and what it leaves in the image *)
(* ===================================================================== *)

(** The pixels in the order of the two nested loops of [renderImageCPU]:
    [i] outside, [j] inside. *)
Definition row (height : Z) (i : Z) : list (Z * Z) :=
  (fun j => (i, j)) <$> seqZ 0 height.

Definition raster (width height : Z) : list (Z * Z) :=
  seqZ 0 width ≫= row height.

(** The image after the pixels [t] have been processed in that order, when
    [f] gives the color of the pixels that are set. *)
Definition paint (f : Z * Z -> option Color) (img : Image)
    (t : list (Z * Z)) : Image :=
  foldl (fun img ij =>
           match f ij with
           | Some c => setPixel (fst ij) (snd ij) (mkPixel c) img
           | None => img
           end) img t.

(* ===================================================================== *)
(** * Render::renderImage (lines 50-66) *)
(* ===================================================================== *)

Module Dispatch.
Section Dispatch.
Context {libm : Libm} {sops : SphereOps}.

(** [renderImage mode width height path st st']: a call from state [st]
    can end in state [st']. *)
Definition renderImage (mode : RenderMode) (width height : Z)
    (path : string) (st st' : State) : Prop :=
  if mode =? CPU then st' = CPU.renderImageCPU width height path st
  else if mode =? TBB then TBB.renderImageTBB width height path st st'
  else st' = cerr_endl "Not implemented yet" st.
End Dispatch.
End Dispatch.

(* ===================================================================== *)
(** * The specification's formulas *)
(* ===================================================================== *)

(** The shading and ray formulas as the specification words them (4.1 and
    4.3), to compare the code with. *)
Module Spec.
Section Spec.
Context {libm : Libm} {sops : SphereOps}.
Local Open Scope float_scope.

(** The cosine of the angle between [a] and [b]: the dot product divided
    by both norms. *)
Definition cosine (a b : Vector4d) : float :=
  Vec.dot a b / Vec.norm a / Vec.norm b.

(** "clamped to >= 0" *)
Definition clamp0 (c : float) : float := if c <? 0 then 0 else c.

(** Step 3 for one light: [(kd*cosNL + ks*cosObsR^m) * lightColor * albedo]
    with kd = 0.6, ks = 0.3, m = 8. *)
Definition contribution (point viewerPos : Vector4d) (hitObject : Sphere)
    (light : Light) : Color :=
  let N := normalVector hitObject point in
  let L := Vec.normalized (Vec.sub (light_pos light) point) in
  let cosNL := clamp0 (cosine N L) in
  let R := Vec.sub (Vec.scale (2 * cosine N L) N) L in
  let obs := Vec.normalized (Vec.sub viewerPos point) in
  let cosObsR := clamp0 (cosine obs R) in
  Col.mul (Col.scale (0.6 * cosNL + 0.3 * pow cosObsR 8) (light_color light))
          (getColor hitObject).

(** [ka * albedo] with ka = 0.1. *)
Definition ambient (hitObject : Sphere) : Color :=
  Col.scale 0.1 (getColor hitObject).

(** The ambient term plus the contributions of the lights, added in the
    order of the list. *)
Definition shade (point viewerPos : Vector4d) (hitObject : Sphere)
    (lights : list Light) : Color :=
  foldl Col.add (ambient hitObject)
        (map (contribution point viewerPos hitObject) lights).

(** 4.3: [generateRay(camera, width, height, pixelX, pixelY)], with the
    pixel offsets as mathematical integers. *)
Definition generateRay (cam : Camera) (width height : Z) (i j : Z) : Ray :=
  let centralRay := Vec.sub (cam_screenCenter cam) (cam_pos cam) in
  let screenRight := Vec.normalized (Vec.cross3 centralRay (cam_up cam)) in
  let screenUp := Vec.normalized (Vec.cross3 screenRight centralRay) in
  let fovRad := cam_fov cam * (pi / 180) in
  let step := tan (fovRad / 2) * Vec.norm centralRay
              / int2double (Z.quot width 2) in
  let x := (i - Z.quot width 2)%Z in
  let y := (j - Z.quot height 2)%Z in
  let pointOnScreen :=
    Vec.add (Vec.add (cam_screenCenter cam)
                     (Vec.scale (int2double x * step) screenRight))
            (Vec.scale (int2double y * step) screenUp) in
  mkRay (cam_pos cam) (Vec.normalized (Vec.sub pointOnScreen (cam_pos cam))).
End Spec.
End Spec.

(** The reflection vector of step 3c, in two readings, and step 3 for one
    light with the reflection vector left open. *)
Module SpecReflection.
Section SpecReflection.
Context {libm : Libm} {sops : SphereOps}.
Local Open Scope float_scope.

(** [R = 2*dot(N,L)*N - L]: the formula with the dot product itself. *)
Definition with_dot (N L : Vector4d) : Vector4d :=
  Vec.sub (Vec.scale (2 * Vec.dot N L) N) L.

(** [R = 2*c*N - L] with the cosine [c = dot(N,L)/|N|/|L|], not clamped. *)
Definition with_cosine (N L : Vector4d) : Vector4d :=
  Vec.sub (Vec.scale (2 * (Vec.dot N L / Vec.norm N / Vec.norm L)) N) L.

(** Steps 3a-3f for one light, on the color [c] accumulated so far: the
    diffuse cosine is clamped, the reflection vector is [refl N L]. *)
Definition accumulate (refl : Vector4d -> Vector4d -> Vector4d)
    (point viewerPos : Vector4d) (hitObject : Sphere) (N : Vector4d)
    (c : Color) (light : Light) : Color :=
  let L := Vec.normalized (Vec.sub (light_pos light) point) in
  let cosNL := Vec.dot N L / Vec.norm N / Vec.norm L in
  let diffuse := if cosNL <? 0 then 0 else cosNL in
  let R := refl N L in
  let obs := Vec.normalized (Vec.sub viewerPos point) in
  let cosObsR := Vec.dot obs R / Vec.norm obs / Vec.norm R in
  let specular := if cosObsR <? 0 then 0 else cosObsR in
  Col.add c (Col.mul (Col.scale (0.6 * diffuse + 0.3 * pow specular 8)
                                (light_color light))
                     (getColor hitObject)).
End SpecReflection.
End SpecReflection.

(* ===================================================================== *)
(** * A concrete scene *)
(* ===================================================================== *)

(** Concrete inputs on which the development is evaluated. *)
Module Sample.
Local Open Scope float_scope.

(** A stand-in for <cmath>: [pow] by repeated multiplication, for the
    exponent 8 the renderer uses; [tan] as the quotient of the Taylor
    polynomials of sine and cosine. *)
Definition pow8 (x : float) : float :=
  let x2 := x * x in let x4 := x2 * x2 in x4 * x4.

Fixpoint taylor (n : nat) (k : float) (x2 term acc : float) : float :=
  match n with
  | O => acc
  | S n' =>
      let term' := - term * x2 / ((k + 1) * (k + 2)) in
      taylor n' (k + 2) x2 term' (acc + term')
  end.

Definition sin (x : float) : float := taylor 12 1 (x * x) x x.
Definition cos (x : float) : float := taylor 12 0 (x * x) 1 1.

#[export] Instance libm : Libm := {|
  tan := fun x => sin x / cos x;
  pow := fun x y => if PrimFloat.eqb y 8 then pow8 x else nan
|}.

(** Modelled from the spec: the member functions of [Sphere] (Obj.hpp is
    not among the sources).  "intersect(ray): returns the smallest
    positive parametric distance along the ray at which the ray's line
    meets the sphere's surface, together with the world-space point at
    that distance; returns none if the ray's line misses the sphere or
    all intersections lie behind the ray origin"; "unit surface normal N
    at point"; "albedo". *)
Definition sphere_intersection (s : Sphere) (r : Ray)
    : float * option Vector4d :=
  let oc := Vec.sub (ray_origin r) (sph_center s) in
  let b := Vec.dot oc (ray_dir r) in
  let c := Vec.dot oc oc - sph_radius s * sph_radius s in
  let disc := b * b - c in
  if disc <? 0 then (0, None)
  else
    let t1 := - b - PrimFloat.sqrt disc in
    let t2 := - b + PrimFloat.sqrt disc in
    if 0 <? t1 then
      (t1, Some (Vec.add (ray_origin r) (Vec.scale t1 (ray_dir r))))
    else if 0 <? t2 then
      (t2, Some (Vec.add (ray_origin r) (Vec.scale t2 (ray_dir r))))
    else (0, None).

Definition sphere_normalVector (s : Sphere) (point : Vector4d) : Vector4d :=
  Vec.normalized (Vec.sub point (sph_center s)).

#[export] Instance sops : SphereOps := {|
  intersection := sphere_intersection;
  normalVector := sphere_normalVector;
  getColor := sph_color
|}.

Definition point (x y z : float) : Vector4d := mkVec x y z 1.
Definition gray (v : float) : Color := mkColor v v v.

(** A camera at the origin looking down the z axis, 90 degrees. *)
Definition cam : Camera :=
  mkCamera (point 0 0 0) (point 0 0 1) (mkVec 0 1 0 0) 90.

Definition near_sphere : Sphere := mkSphere (point 0 0 5) 1 (gray 1).
Definition far_sphere : Sphere := mkSphere (point 0 0 10) 1 (gray 0.5).
(** Same distance along the z axis as [near_sphere], other color. *)
Definition twin_sphere : Sphere := mkSphere (point 0 0 5) 1 (gray 0.25).

Definition axis_ray : Ray := mkRay (point 0 0 0) (mkVec 0 0 1 0).

(** A unit sphere at the origin, shaded at its north pole [(0,0,1)], seen
    from [(1,0,1)], lit from straight above. *)
Definition unit_sphere : Sphere := mkSphere (point 0 0 0) 1 (gray 1).
Definition pole : Vector4d := point 0 0 1.
Definition viewer : Vector4d := point 1 0 1.
Definition light_a : Light := mkLight (point 0 0 3) (gray 0.5).
Definition light_b : Light := mkLight (point 0 0 3) (gray 0.75).
(** A light below the surface point. *)
Definition light_below : Light := mkLight (point 0 0 (-1)) (gray 1).

Definition scene0 : Scene :=
  mkScene cam [far_sphere; near_sphere] [light_a; light_b].
Definition state0 : State := mkState scene0 [] ∅.
End Sample.

(* ===================================================================== *)
(** * Degenerate values *)
(* ===================================================================== *)

(** Classes of doubles, as decidable tests: a zero of either sign; a zero
    or a NaN; an infinity or a NaN; a finite number. *)
Module Fl.
Definition is_zero (x : float) : bool := PrimFloat.eqb x 0.

Definition zero_or_nan (x : float) : bool :=
  match Prim2SF x with
  | S754_zero _ | S754_nan => true
  | _ => false
  end.

Definition inf_or_nan (x : float) : bool :=
  match Prim2SF x with
  | S754_infinity _ | S754_nan => true
  | _ => false
  end.

Definition finite (x : float) : bool :=
  PrimFloat.ltb (PrimFloat.abs x) infinity.
End Fl.

(** A vector whose four coefficients are zeros; a vector whose four
    coefficients are finite. *)
Definition zero_vector (v : Vector4d) : bool :=
  Fl.is_zero (vx v) && Fl.is_zero (vy v) && Fl.is_zero (vz v)
  && Fl.is_zero (vw v).

Definition finite_vector (v : Vector4d) : bool :=
  Fl.finite (vx v) && Fl.finite (vy v) && Fl.finite (vz v)
  && Fl.finite (vw v).

Definition nan_vector : Vector4d := mkVec nan nan nan nan.
Definition nan_color : Color := mkColor nan nan nan.

(** Is the pixel [(i, j)] a cell of a [width] x [height] image? *)
Definition in_image (width height : Z) (ij : Z * Z) : bool :=
  (0 <=? fst ij) && (fst ij <? width) && (0 <=? snd ij) && (snd ij <? height).

(** What holds of the buffer [acc.1] and of the sphere kept [acc.2] after
    the scan of the whole list [objs] (lines 119-134): no sphere is hit
    strictly nearer than the buffer; the buffer is still [DBL_MAX] when no
    sphere is kept; the sphere kept is hit at the distance in the buffer,
    below [DBL_MAX], and no sphere before it is hit as near. *)
Definition scan_inv `{sops : SphereOps} (r : Ray) (objs : list Sphere)
    (acc : float * option Hit) : Prop :=
  (forall j s d p, objs !! j = Some s -> intersection s r = (d, Some p) ->
                   PrimFloat.ltb d acc.1 = false)
  /\ match acc.2 with
     | None => acc.1 = DBL_MAX
     | Some h =>
         objs !! hit_index h = Some (hit_sphere h)
         /\ intersection (hit_sphere h) r = (acc.1, Some (hit_point h))
         /\ PrimFloat.ltb acc.1 DBL_MAX = true
         /\ forall j s d p, (j < hit_index h)%nat -> objs !! j = Some s ->
              intersection s r = (d, Some p) -> PrimFloat.leb d acc.1 = false
     end.

(** More concrete inputs: a light at the shaded point, a scene without
    spheres, a scene without lights, a light at 45 degrees. *)
Module Edge.
Definition light_at_pole : Light := mkLight Sample.pole (Sample.gray 1).
Definition empty_scene : Scene := mkScene Sample.cam [] [Sample.light_a].
Definition empty_state : State := mkState empty_scene [] ∅.
Definition dark_scene : Scene :=
  mkScene Sample.cam [Sample.far_sphere; Sample.near_sphere] [].
Definition dark_state : State := mkState dark_scene [] ∅.
(** A light at 45 degrees above the pole, and a viewer straight above. *)
Definition light_45 : Light := mkLight (Sample.point 1 0 2) (Sample.gray 1).
Definition viewer_above : Vector4d := Sample.point 0 0 3.
End Edge.

(* ===================================================================== *)
(** * Facts about binary64 arithmetic *)
(* ===================================================================== *)

(** The comparison of doubles is a strict order; a division by 1 is exact;
    a positive [int] converts to a nonzero double.  All are derived from
    the specification of the primitive operations ([SpecFloat]). *)
Module FloatFacts.

Lemma compare_cont_Eq_antisym m m' :
  Pos.compare_cont Eq m' m = CompOpp (Pos.compare_cont Eq m m').
Proof. now rewrite Pos.compare_cont_antisym. Qed.

Lemma SFcompare_antisym f g :
  SFcompare g f = option_map CompOpp (SFcompare f g).
Proof.
  destruct f as [s|s| |s m e], g as [s'|s'| |s' m' e']; simpl;
    try destruct s; try destruct s'; try reflexivity;
    rewrite (Z.compare_antisym e e'), (compare_cont_Eq_antisym m m');
    destruct (e ?= e'); simpl; try reflexivity;
    now rewrite CompOpp_involutive.
Qed.

Lemma SFcompare_refl_not_Lt f : SFcompare f f <> Some Lt.
Proof.
  destruct f as [s|s| |s m e]; simpl; try destruct s; try discriminate;
    rewrite Z.compare_refl, Pos.compare_cont_refl; discriminate.
Qed.

Lemma SFltb_irrefl f : SFltb f f = false.
Proof.
  unfold SFltb. pose proof (SFcompare_refl_not_Lt f).
  destruct (SFcompare f f) as [[]|]; congruence.
Qed.

Lemma SFltb_asym f g : SFltb f g = true -> SFltb g f = false.
Proof.
  unfold SFltb. rewrite (SFcompare_antisym f g).
  destruct (SFcompare f g) as [[]|]; simpl; congruence.
Qed.

Lemma SFltb_trans f g h :
  SFltb f g = true -> SFltb g h = true -> SFltb f h = true.
Proof.
  unfold SFltb.
  destruct f as [s|s| |s m e], g as [s'|s'| |s' m' e'],
           h as [s''|s''| |s'' m'' e'']; simpl;
    try destruct s; try destruct s'; try destruct s'';
    try congruence;
    change (Pos.compare_cont Eq) with Pos.compare;
    destruct (Z.compare_spec e e'), (Z.compare_spec e' e''),
             (Z.compare_spec e e'');
    try congruence; try lia; subst;
    destruct (Pos.compare_spec m m'), (Pos.compare_spec m' m''),
             (Pos.compare_spec m m'');
    simpl; try congruence; try lia.
Qed.

Lemma ltb_irrefl (x : float) : PrimFloat.ltb x x = false.
Proof. rewrite FloatAxioms.ltb_spec. apply SFltb_irrefl. Qed.

Lemma ltb_asym (x y : float) :
  PrimFloat.ltb x y = true -> PrimFloat.ltb y x = false.
Proof. rewrite !FloatAxioms.ltb_spec. apply SFltb_asym. Qed.

Lemma ltb_trans (x y z : float) :
  PrimFloat.ltb x y = true -> PrimFloat.ltb y z = true ->
  PrimFloat.ltb x z = true.
Proof. rewrite !FloatAxioms.ltb_spec. apply SFltb_trans. Qed.

(** ** Division by one *)

Lemma div_eucl_shiftl_pow2 (a n : Z) :
  0 <= n -> Z.div_eucl (Z.shiftl a n) (2 ^ n) = (a, 0).
Proof.
  intros Hn. rewrite Z.shiftl_mul_pow2 by assumption.
  assert (Hp : 0 < 2 ^ n) by (apply Z.pow_pos_nonneg; lia).
  pose proof (Z.div_mul a (2 ^ n) ltac:(lia)) as Hd.
  pose proof (Z.mod_mul a (2 ^ n) ltac:(lia)) as Hm.
  unfold Z.div, Z.modulo in Hd, Hm.
  destruct (Z.div_eucl (a * 2 ^ n) (2 ^ n)). simpl in *. congruence.
Qed.

(** The quotient of a finite double [m * 2^e] by [1 = 2^52 * 2^-52]: the
    integer quotient is [m] or [2 m], exactly, and rounding gives back
    [m * 2^e]. *)
Lemma SFdiv_one s m e :
  bounded prec emax m e = true ->
  SFdiv prec emax (S754_finite s m e) (S754_finite false 4503599627370496 (-52))
  = S754_finite s m e.
Proof.
  intros Hb. unfold bounded, canonical_mantissa in Hb.
  apply andb_prop in Hb. destruct Hb as [Hc He].
  apply Z.eqb_eq in Hc. apply Z.leb_le in He.
  unfold SFdiv, SFdiv_core_binary.
  change (Zdigits2 (Zpos m)) with (Zpos (digits2_pos m)).
  change (Zdigits2 4503599627370496) with 53.
  change prec with 53 in *. change emax with 1024 in *.
  unfold fexp, emin in *.
  set (d := Zpos (digits2_pos m)) in *.
  assert (Hx : xorb s false = s) by now destruct s.
  rewrite Hx.
  assert (Hcase : (e = -1074 /\ d <= 53) \/ (d = 53 /\ -1074 < e)) by lia.
  destruct Hcase as [[-> Hd] | [Hd He']].
  - replace (Z.min (Z.max (d + -1074 - (53 + -52) - 53) (3 - 1024 - 53))
                   (-1074 - -52)) with (-1074) by lia.
    change (-1074 - -52 - -1074) with 52.
    cbv iota beta.
    change 4503599627370496 with (2 ^ 52).
    rewrite div_eucl_shiftl_pow2 by lia.
    change (2 ^ 52) with 4503599627370496.
    unfold new_location. cbn [Z.even new_location_even Z.eqb].
    unfold binary_round_aux, shr_fexp.
    change (Zdigits2 (Zpos m)) with d.
    unfold fexp, emin.
    replace (Z.max (d + -1074 - 53) (3 - 1024 - 53) - -1074) with 0 by lia.
    cbn [shr shr_record_of_loc shr_m loc_of_shr_record round_nearest_even].
    change (Zdigits2 (Zpos m)) with d.
    replace (Z.max (d + -1074 - 53) (3 - 1024 - 53) - -1074) with 0 by lia.
    cbn [shr shr_record_of_loc shr_m loc_of_shr_record round_nearest_even].
    reflexivity.
  - replace (Z.min (Z.max (d + e - (53 + -52) - 53) (3 - 1024 - 53)) (e - -52))
      with (e - 1) by lia.
    replace (e - -52 - (e - 1)) with 53 by lia.
    cbv iota beta.
    change 4503599627370496 with (2 ^ 52).
    replace (Z.shiftl (Zpos m) 53) with (Z.shiftl (Zpos m~0) 52)
      by (rewrite !Z.shiftl_mul_pow2 by lia;
          change (2 ^ 53) with (2 * 2 ^ 52); lia).
    rewrite div_eucl_shiftl_pow2 by lia.
    change (2 ^ 52) with 4503599627370496.
    unfold new_location. cbn [Z.even new_location_even Z.eqb].
    unfold binary_round_aux, shr_fexp.
    change (Zdigits2 (Zpos m~0)) with (Zpos (Pos.succ (digits2_pos m))).
    rewrite Pos2Z.inj_succ. fold d.
    unfold fexp, emin.
    replace (Z.max (Z.succ d + (e - 1) - 53) (3 - 1024 - 53) - (e - 1))
      with 1 by lia.
    cbn [shr shr_record_of_loc shr_m loc_of_shr_record round_nearest_even
         SpecFloat.iter_pos shr_1 orb].
    change (Zdigits2 (Zpos m)) with d.
    replace (Z.max (d + (e - 1 + 1) - 53) (3 - 1024 - 53) - (e - 1 + 1))
      with 0 by lia.
    cbn [shr shr_m].
    replace (e - 1 + 1) with e by lia.
    destruct (e <=? 1024 - 53) eqn:E; [reflexivity|].
    apply Z.leb_gt in E. lia.
Qed.

Lemma div_one (x : float) : (x / 1)%float = x.
Proof.
  apply Prim2SF_inj. rewrite FloatAxioms.div_spec.
  pose proof (Prim2SF_valid x) as Hv.
  change (Prim2SF 1) with (S754_finite false 4503599627370496 (-52)).
  destruct (Prim2SF x) as [s|s| |s m e].
  - now destruct s.
  - now destruct s.
  - reflexivity.
  - apply SFdiv_one. exact Hv.
Qed.

(** ** Conversion of a positive [int] *)

Lemma digits2_pos_lower p : 2 ^ (Zpos (digits2_pos p) - 1) <= Zpos p.
Proof.
  induction p as [p IH|p IH|]; cbn [digits2_pos].
  - rewrite Pos2Z.inj_succ.
    replace (Z.succ (Zpos (digits2_pos p)) - 1)
      with (Z.succ (Zpos (digits2_pos p) - 1)) by lia.
    rewrite Z.pow_succ_r by lia. lia.
  - rewrite Pos2Z.inj_succ.
    replace (Z.succ (Zpos (digits2_pos p)) - 1)
      with (Z.succ (Zpos (digits2_pos p) - 1)) by lia.
    rewrite Z.pow_succ_r by lia. lia.
  - simpl. lia.
Qed.

Lemma digits2_pos_iter_xO p k :
  Zpos (digits2_pos (Pos.iter xO p k)) = Zpos (digits2_pos p) + Zpos k.
Proof.
  revert p. induction k using Pos.peano_ind; intros p.
  - simpl. lia.
  - rewrite Pos.iter_succ. cbn [digits2_pos].
    rewrite Pos2Z.inj_succ, IHk. lia.
Qed.

Lemma binary_normalize_pos p :
  Zpos p < 2 ^ 53 ->
  exists m e,
    binary_normalize prec emax (Zpos p) 0 false = S754_finite false m e.
Proof.
  intros Hp. pose proof (digits2_pos_lower p) as Hd.
  set (d := Zpos (digits2_pos p)) in *.
  assert (Hd53 : d <= 53).
  { destruct (Z_le_gt_dec d 53) as [|Hgt]; [assumption|exfalso].
    assert (2 ^ 53 <= 2 ^ (d - 1)) by (apply Z.pow_le_mono_r; lia). lia. }
  assert (0 < d) by (unfold d; lia).
  unfold binary_normalize, binary_round, shl_align.
  change prec with 53. change emax with 1024. unfold fexp, emin. fold d.
  replace (Z.max (d + 0 - 53) (3 - 1024 - 53) - 0) with (d - 53) by lia.
  destruct (d - 53) as [|q|q] eqn:Hq; [ | lia | ].
  - unfold binary_round_aux, shr_fexp.
    change (Zdigits2 (Zpos p)) with d. unfold fexp, emin.
    replace (Z.max (d + 0 - 53) (3 - 1024 - 53) - 0) with 0 by lia.
    cbn [shr shr_record_of_loc shr_m loc_of_shr_record round_nearest_even].
    change (Zdigits2 (Zpos p)) with d.
    replace (Z.max (d + 0 - 53) (3 - 1024 - 53) - 0) with 0 by lia.
    cbn [shr shr_m]. simpl. eauto.
  - unfold binary_round_aux, shr_fexp.
    change (Zdigits2 (Zpos (Pos.iter xO p q)))
      with (Zpos (digits2_pos (Pos.iter xO p q))).
    rewrite digits2_pos_iter_xO. fold d. unfold fexp, emin.
    replace (Z.max (d + Zpos q + (Z.max (d + 0 - 53) (3 - 1024 - 53)) - 53)
                   (3 - 1024 - 53)
             - Z.max (d + 0 - 53) (3 - 1024 - 53)) with 0 by lia.
    cbn [shr shr_record_of_loc shr_m loc_of_shr_record round_nearest_even].
    change (Zdigits2 (Zpos (Pos.iter xO p q)))
      with (Zpos (digits2_pos (Pos.iter xO p q))).
    rewrite digits2_pos_iter_xO. fold d.
    replace (Z.max (d + Zpos q + (Z.max (d + 0 - 53) (3 - 1024 - 53)) - 53)
                   (3 - 1024 - 53)
             - Z.max (d + 0 - 53) (3 - 1024 - 53)) with 0 by lia.
    cbn [shr shr_m].
    destruct (Z.max (d + 0 - 53) (3 - 1024 - 53) <=? 1024 - 53) eqn:E;
      [eauto|].
    apply Z.leb_gt in E. lia.
Qed.

Lemma int2double_pos_nonzero z :
  0 < z < 2 ^ 53 -> PrimFloat.eqb (int2double z) 0 = false.
Proof.
  intros Hz. unfold int2double.
  destruct (z <? 0) eqn:E; [apply Z.ltb_lt in E; lia|].
  rewrite FloatAxioms.eqb_spec, of_uint63_spec.
  rewrite Uint63.of_Z_spec, Z.mod_small by (change wB with (2 ^ 63); lia).
  destruct z as [|p|p]; try lia.
  destruct (binary_normalize_pos p) as (m & e & ->); [lia|].
  reflexivity.
Qed.

Lemma eqb_not_ltb (x y : float) :
  PrimFloat.eqb x y = true -> PrimFloat.ltb x y = false.
Proof.
  rewrite FloatAxioms.eqb_spec, FloatAxioms.ltb_spec. unfold SFeqb, SFltb.
  destruct (SFcompare _ _) as [[]|]; congruence.
Qed.

End FloatFacts.

(* ===================================================================== *)
(** * Shading *)
(* ===================================================================== *)

Section ShadingFacts.
Context {libm : Libm} {sops : SphereOps}.
Local Open Scope float_scope.

Lemma myCos_unclamped a b : Render.myCos a b false = Spec.cosine a b.
Proof. reflexivity. Qed.

Lemma myCos_clamped a b :
  Render.myCos a b true = Spec.clamp0 (Spec.cosine a b).
Proof. reflexivity. Qed.

Lemma clamp0_not_negative c : (Spec.clamp0 c <? 0) = false.
Proof.
  unfold Spec.clamp0. destruct (c <? 0) eqn:E; [reflexivity | exact E].
Qed.

Lemma calcColor_step_contribution p v s c light :
  Render.calcColor_step p v s (normalVector s p) c light
  = Col.add c (Spec.contribution p v s light).
Proof. reflexivity. Qed.

Lemma calcColor_loop_foldl p v s lights c :
  Render.calcColor_loop p v s (normalVector s p) lights c
  = foldl Col.add c (map (Spec.contribution p v s) lights).
Proof.
  revert c. induction lights as [|light rest IH]; intros c; simpl.
  - reflexivity.
  - rewrite IH, calcColor_step_contribution. reflexivity.
Qed.

End ShadingFacts.

(** C2: for every surface point, viewer position, hit sphere and light
    list, [calcColor] returns [ka * albedo] plus, added in the order of the
    list, [(kd*cosNL + ks*cosObsR^m) * lightColor * albedo] for each light,
    with ka = 0.1, kd = 0.6, ks = 0.3, m = 8, [cosNL] the cosine between
    the normal and the light direction and [cosObsR] the cosine between the
    viewer direction and the reflection vector, both replaced by 0 when
    negative (so never below 0); with no light the result is exactly
    [ka * albedo]. *)
Theorem calcColor_is_phong_sum `{libm : Libm} `{sops : SphereOps}
    (point viewerPos : Vector4d) (s : Sphere) (lights : list Light) :
  Render.calcColor point viewerPos s lights
    = Spec.shade point viewerPos s lights
  /\ Render.calcColor point viewerPos s [] = Col.scale 0.1 (getColor s)
  /\ (forall light,
        Render.calcColor point viewerPos s (lights ++ [light])
        = Col.add (Render.calcColor point viewerPos s lights)
                  (Spec.contribution point viewerPos s light))
  /\ (forall a b, PrimFloat.ltb (Spec.clamp0 (Spec.cosine a b)) 0 = false).
Proof.
  repeat split.
  - unfold Render.calcColor, Spec.shade. apply calcColor_loop_foldl.
  - intros light. unfold Render.calcColor.
    rewrite !calcColor_loop_foldl, map_app, foldl_app. reflexivity.
  - intros a b. apply clamp0_not_negative.
Qed.

Section ReflectionFacts.
Context {libm : Libm} {sops : SphereOps}.

Lemma calcColor_step_accumulate p v s N c light :
  Render.calcColor_step p v s N c light
  = SpecReflection.accumulate SpecReflection.with_cosine p v s N c light.
Proof. reflexivity. Qed.

Lemma calcColor_loop_accumulate p v s N lights c :
  Render.calcColor_loop p v s N lights c
  = foldl (SpecReflection.accumulate SpecReflection.with_cosine p v s N)
          c lights.
Proof.
  revert c. induction lights as [|light rest IH]; intros c; [done|].
  cbn [Render.calcColor_loop foldl]. by rewrite IH, calcColor_step_accumulate.
Qed.

Lemma with_cosine_unit N L :
  Vec.norm N = 1%float -> Vec.norm L = 1%float ->
  SpecReflection.with_cosine N L = SpecReflection.with_dot N L.
Proof.
  intros HN HL. unfold SpecReflection.with_cosine, SpecReflection.with_dot.
  by rewrite HN, HL, !FloatFacts.div_one.
Qed.
End ReflectionFacts.

(** C3 as stated fails: at the pole [(0,0,1)] of the unit sphere the normal
    is [N = (0,0,1)], of norm exactly 1, and for a light at [(1,0,2)] the
    light direction is [L = normalize((1,0,1))], whose two coefficients
    round to 0.7071067811865475 and whose computed norm is
    0.9999999999999999.  Line 86 multiplies by the cosine
    [dot(N,L)/|N|/|L| = 0.7071067811865476], not by
    [dot(N,L) = 0.7071067811865475]: the third coefficient of [R] is
    0.7071067811865477, and 0.7071067811865475 by [2*dot(N,L)*N - L].
    Seen from straight above, the color [calcColor] returns differs from
    the color the formula with the dot product gives (on the sample
    [pow]). *)
Lemma reflection_with_dot_counterexample :
  let N := normalVector (SphereOps := Sample.sops) Sample.unit_sphere
             Sample.pole in
  let L := Vec.normalized (Vec.sub (light_pos Edge.light_45) Sample.pole) in
  (N = mkVec 0 0 1 0 /\ Vec.norm N = 1%float)
  /\ (L = mkVec 0.7071067811865475 0 0.7071067811865475 0
      /\ Vec.norm L = 0.9999999999999999%float)
  /\ Render.myCos N L false = 0.7071067811865476%float
  /\ Vec.dot N L = 0.7071067811865475%float
  /\ Vec.sub (Vec.scale (2 * Render.myCos N L false) N) L
     = mkVec (-0.7071067811865475) 0 0.7071067811865477 0
  /\ SpecReflection.with_dot N L
     = mkVec (-0.7071067811865475) 0 0.7071067811865475 0
  /\ Render.calcColor (libm := Sample.libm) (sops := Sample.sops)
       Sample.pole Edge.viewer_above Sample.unit_sphere [Edge.light_45]
     = Sample.gray 0.5430140687119286
  /\ SpecReflection.accumulate (libm := Sample.libm) (sops := Sample.sops)
       SpecReflection.with_dot Sample.pole Edge.viewer_above
       Sample.unit_sphere N
       (Col.scale 0.1 (getColor (SphereOps := Sample.sops) Sample.unit_sphere))
       Edge.light_45
     = Sample.gray 0.5430140687119285
  /\ Vec.sub (Vec.scale (2 * Render.myCos N L false) N) L
     <> SpecReflection.with_dot N L.
Proof. cbv zeta. repeat split. vm_compute. discriminate. Qed.

(** C3 (amended): for every input, the loop body of [calcColor] adds the
    contribution of the light computed with the reflection vector
    [R = 2*c*N - L], where [c = dot(N,L)/|N|/|L|] is the cosine without
    the clamp, while the diffuse term is [kd] times the clamped [c]; so a
    light behind the surface ([c < 0]) has the diffuse term [kd * 0] and
    still the specular term of the [R] built from the negative [c].  The
    whole of [calcColor] is the left-to-right accumulation of these
    steps.  When the computed norms of [N] and [L] are exactly 1, [c] is
    [dot(N,L)] and [R = 2*dot(N,L)*N - L]. *)
Theorem calcColor_reflects_with_unclamped_cosine
    `{libm : Libm} `{sops : SphereOps}
    (sectionPoint cameraPos : Vector4d) (s : Sphere) (N : Vector4d)
    (c : Color) (light : Light) (lights : list Light) :
  let L := Vec.normalized (Vec.sub (light_pos light) sectionPoint) in
  let obs := Vec.normalized (Vec.sub cameraPos sectionPoint) in
  let cosNL := (Vec.dot N L / Vec.norm N / Vec.norm L)%float in
  let R := Vec.sub (Vec.scale (2 * cosNL) N) L in
  let cosObsR := (Vec.dot obs R / Vec.norm obs / Vec.norm R)%float in
  Render.calcColor_step sectionPoint cameraPos s N c light
  = Col.add c
      (Col.mul
         (Col.scale
            (0.6 * (if PrimFloat.ltb cosNL 0 then 0 else cosNL)
             + 0.3 * pow (if PrimFloat.ltb cosObsR 0 then 0 else cosObsR) 8)
            (light_color light))
         (getColor s))
  /\ (PrimFloat.ltb cosNL 0 = true ->
      Render.calcColor_step sectionPoint cameraPos s N c light
      = Col.add c
          (Col.mul
             (Col.scale
                (0.6 * 0
                 + 0.3 * pow (if PrimFloat.ltb cosObsR 0 then 0 else cosObsR) 8)
                (light_color light))
             (getColor s)))
  /\ Render.calcColor sectionPoint cameraPos s lights
     = foldl (SpecReflection.accumulate SpecReflection.with_cosine
                sectionPoint cameraPos s (normalVector s sectionPoint))
             (Col.scale 0.1 (getColor s)) lights
  /\ (Vec.norm N = 1%float -> Vec.norm L = 1%float ->
      R = Vec.sub (Vec.scale (2 * Vec.dot N L) N) L
      /\ Render.calcColor_step sectionPoint cameraPos s N c light
         = SpecReflection.accumulate SpecReflection.with_dot
             sectionPoint cameraPos s N c light).
Proof.
  intros L obs cosNL R cosObsR.
  split; [reflexivity|]. split; [|split].
  - intros Hneg.
    change (Render.calcColor_step sectionPoint cameraPos s N c light)
      with (Col.add c
              (Col.mul
                 (Col.scale
                    (0.6 * (if PrimFloat.ltb cosNL 0 then 0 else cosNL)
                     + 0.3 * pow (if PrimFloat.ltb cosObsR 0 then 0
                                  else cosObsR) 8)
                    (light_color light))
                 (getColor s))).
    by rewrite Hneg.
  - unfold Render.calcColor. apply calcColor_loop_accumulate.
  - intros HN HL.
    assert (HR : SpecReflection.with_cosine N L = SpecReflection.with_dot N L)
      by by apply with_cosine_unit.
    split; [exact HR|].
    rewrite calcColor_step_accumulate. unfold SpecReflection.accumulate.
    cbv zeta. fold L. by rewrite HR.
Qed.

(** A light straight below the pole of the unit sphere, seen from below:
    the cosine is -1, the diffuse term is 0 and the reflection vector
    [(0,0,-1)] points at the viewer, so the step adds [ks] alone. *)
Lemma calcColor_reflects_with_unclamped_cosine_witness :
  Render.calcColor_step (libm := Sample.libm) (sops := Sample.sops)
    Sample.pole (Sample.point 0 0 (-3)) Sample.unit_sphere (mkVec 0 0 1 0)
    (Sample.gray 0.1) Sample.light_below
  = Sample.gray 0.4
  /\ Vec.sub (Vec.scale (2 * (-1)) (mkVec 0 0 1 0)) (mkVec 0 0 (-1) 0)
     = SpecReflection.with_dot (mkVec 0 0 1 0) (mkVec 0 0 (-1) 0).
Proof.
  pose proof (calcColor_reflects_with_unclamped_cosine
                (libm := Sample.libm) (sops := Sample.sops)
                Sample.pole (Sample.point 0 0 (-3)) Sample.unit_sphere
                (mkVec 0 0 1 0) (Sample.gray 0.1) Sample.light_below [])
    as H.
  cbv zeta in H. destruct H as (_ & Hneg & _ & Hunit). split.
  - etransitivity; [apply Hneg; reflexivity|reflexivity].
  - apply Hunit; reflexivity.
Defined.

(** C8 as stated fails: two lights at the same place [(0,0,3)] with the
    colors 0.5 and 0.75, above the point [(0,0,1)] of a white sphere whose
    normal there is [(0,0,1)], seen from [(1,0,1)].  For both lights
    [cosNL = 1] and [cosObsR = 0], so the factor is [0.6 + 0.3 * pow(0, 8)]
    and, with [pow(0, 8) = 0], the contributions are 0.3 and 0.45; the sums
    [(0.1 + 0.3) + 0.45] and [(0.1 + 0.45) + 0.3] differ in the last bit.
    This holds on the sample implementations of <cmath> and [Sphere], and
    for every implementation that agrees with them on these three values. *)
Lemma calcColor_light_order_counterexample :
  Permutation [Sample.light_a; Sample.light_b] [Sample.light_b; Sample.light_a]
  /\ Render.calcColor (libm := Sample.libm) (sops := Sample.sops)
       Sample.pole Sample.viewer Sample.unit_sphere
       [Sample.light_a; Sample.light_b]
     <> Render.calcColor (libm := Sample.libm) (sops := Sample.sops)
       Sample.pole Sample.viewer Sample.unit_sphere
       [Sample.light_b; Sample.light_a]
  /\ forall (libm : Libm) (sops : SphereOps),
     pow 0 8 = 0%float ->
     normalVector Sample.unit_sphere Sample.pole = mkVec 0 0 1 0 ->
     getColor Sample.unit_sphere = mkColor 1 1 1 ->
     Render.calcColor Sample.pole Sample.viewer Sample.unit_sphere
       [Sample.light_a; Sample.light_b]
       = mkColor 0.85 0.85 0.85
     /\ Render.calcColor Sample.pole Sample.viewer Sample.unit_sphere
       [Sample.light_b; Sample.light_a]
       = mkColor 0.8499999999999999 0.8499999999999999 0.8499999999999999
     /\ Render.calcColor Sample.pole Sample.viewer Sample.unit_sphere
         [Sample.light_a; Sample.light_b]
       <> Render.calcColor Sample.pole Sample.viewer Sample.unit_sphere
         [Sample.light_b; Sample.light_a].
Proof.
  split; [apply perm_swap|].
  split; [vm_compute; intros H; discriminate H|].
  intros [tan0 pow0] [inter0 normal0 color0] Hpow HN Hcol.
  cbn [pow normalVector getColor] in Hpow, HN, Hcol.
  vm_compute in HN, Hcol.
  split; [|split].
  - vm_compute. rewrite HN, Hcol. vm_compute. rewrite Hpow. reflexivity.
  - vm_compute. rewrite HN, Hcol. vm_compute. rewrite Hpow. reflexivity.
  - intros H. vm_compute in H. rewrite HN, Hcol in H. vm_compute in H.
    rewrite Hpow in H. vm_compute in H. discriminate H.
Qed.

(** C8 (amended): [calcColor] is the sum, from left to right in the order
    of the list and in double arithmetic, of [ka * albedo] and of one
    contribution per light; the contribution of a light depends on that
    light only, so reordering the lights reorders the summands. *)
Theorem calcColor_permutes_contributions `{libm : Libm} `{sops : SphereOps}
    (point viewerPos : Vector4d) (s : Sphere) (lights lights' : list Light) :
  Permutation lights lights' ->
  Render.calcColor point viewerPos s lights
    = foldl Col.add (Col.scale 0.1 (getColor s))
            (map (Spec.contribution point viewerPos s) lights)
  /\ Render.calcColor point viewerPos s lights'
    = foldl Col.add (Col.scale 0.1 (getColor s))
            (map (Spec.contribution point viewerPos s) lights')
  /\ Permutation (map (Spec.contribution point viewerPos s) lights)
                 (map (Spec.contribution point viewerPos s) lights').
Proof.
  intros HP. split; [|split].
  - unfold Render.calcColor. apply calcColor_loop_foldl.
  - unfold Render.calcColor. apply calcColor_loop_foldl.
  - apply Permutation_map. exact HP.
Qed.

(* ===================================================================== *)
(** * The two renderers *)
(* ===================================================================== *)

(** * Loops *)
Section Loops.
Context {A S : Type}.

Lemma foldl_bind (f : S -> A -> S) (g : Z -> list A) (l : list Z) (s : S) :
  foldl f s (l ≫= g) = foldl (fun s k => foldl f s (g k)) s l.
Proof.
  revert s. induction l as [|k l IH]; intros s; [reflexivity|].
  rewrite bind_cons, foldl_app. apply IH.
Qed.
End Loops.

Lemma for_int_nested {S : Type} (body : Z -> Z -> S -> S) (width height : Z) (s : S) :
  for_int 0 width (fun i => for_int 0 height (fun j => body i j)) s
  = foldl (fun s ij => body (fst ij) (snd ij) s) s (raster width height).
Proof.
  unfold for_int, raster. rewrite foldl_bind, !Z.sub_0_r.
  revert s. induction (seqZ 0 width) as [|i l IH]; intros s; [reflexivity|].
  simpl. rewrite <- IH. f_equal.
  unfold row. rewrite foldl_fmap. reflexivity.
Qed.

(** * paint *)
Lemma paint_dims f img t :
  img_width (paint f img t) = img_width img
  /\ img_height (paint f img t) = img_height img.
Proof.
  revert img. induction t as [|k t IH]; intros img; [done|].
  unfold paint in *. simpl. destruct (f k); [|apply IH].
  destruct (IH (setPixel k.1 k.2 (mkPixel c) img)) as [-> ->]. done.
Qed.

Lemma paint_lookup f img t k :
  img_pixels (paint f img t) !! k
  = match f k with
    | Some c => if decide (k ∈ t) then Some (mkPixel c) else img_pixels img !! k
    | None => img_pixels img !! k
    end.
Proof.
  revert img. induction t as [|k' t IH]; intros img.
  - cbn [paint foldl]. destruct (f k); [|done].
    rewrite decide_False; [done|]. apply not_elem_of_nil.
  - unfold paint in *. cbn [foldl]. rewrite IH. clear IH.
    assert (Hne : forall c', k <> k' ->
              img_pixels (setPixel k'.1 k'.2 (mkPixel c') img) !! k
              = img_pixels img !! k).
    { intros c' Hkk'. destruct k' as [x y]; cbn [fst snd setPixel img_pixels].
      rewrite lookup_insert_ne; done. }
    destruct (f k) as [c|] eqn:Hk.
    + destruct (decide (k ∈ t)) as [Hin|Hnin].
      { rewrite (decide_True (P := k ∈ k' :: t)); [done|].
        by apply list_elem_of_further. }
      destruct (decide (k = k')) as [<-|Hkk'].
      * rewrite Hk. destruct k as [x y]; cbn [fst snd setPixel img_pixels].
        rewrite lookup_insert_eq.
        rewrite (decide_True (P := (x, y) ∈ (x, y) :: t)); [done|].
        apply list_elem_of_here.
      * rewrite (decide_False (P := k ∈ k' :: t)).
        -- destruct (f k'); [apply Hne|]; done.
        -- intros [?|?]%elem_of_cons; done.
    + destruct (f k') as [c'|] eqn:Hk'; [|done].
      apply Hne. intros <-. congruence.
Qed.

Lemma Image_eq (a b : Image) :
  img_width a = img_width b -> img_height a = img_height b ->
  (forall k, img_pixels a !! k = img_pixels b !! k) -> a = b.
Proof.
  destruct a, b; simpl; intros -> -> H. f_equal. apply map_eq, H.
Qed.

Lemma paint_Permutation f img t t' :
  Permutation t t' -> paint f img t = paint f img t'.
Proof.
  intros HP. apply Image_eq.
  - destruct (paint_dims f img t) as [-> _], (paint_dims f img t') as [-> _]. done.
  - destruct (paint_dims f img t) as [_ ->], (paint_dims f img t') as [_ ->]. done.
  - intros k. rewrite !paint_lookup. destruct (f k); [|done].
    destruct (decide (k ∈ t)), (decide (k ∈ t')); try done.
    + exfalso. rewrite <- HP in *. done.
    + exfalso. rewrite HP in *. done.
Qed.

(** * Steps of parallel runs *)
Section Steps.
Context {A : Type}.
Implicit Types t : list A.

Lemma interleave_Permutation t1 t2 t :
  interleave t1 t2 t -> Permutation t (t1 ++ t2).
Proof.
  induction 1 as [|x t1 t2 t _ IH|x t1 t2 t _ IH]; simpl.
  - done.
  - by constructor.
  - rewrite IH. apply Permutation_middle.
Qed.

Lemma interleave_app t1 t2 : interleave t1 t2 (t1 ++ t2).
Proof.
  induction t1 as [|x t1 IH]; simpl.
  - induction t2; constructor; done.
  - by constructor.
Qed.

Lemma for_steps_Permutation (g : Z -> list A -> Prop) (gs : Z -> list A) b e t :
  (forall k t, b <= k < e -> g k t -> Permutation t (gs k)) ->
  for_steps g b e t -> Permutation t (seqZ b (e - b) ≫= gs).
Proof.
  intros Hg Hf. induction Hf as [b e Hbe|b e t1 t2 Hbe H1 _ IH].
  - rewrite seqZ_nil by lia. done.
  - rewrite seqZ_cons by lia. rewrite bind_cons.
    replace (Z.pred (e - b)) with (e - (b + 1)) by lia.
    rewrite (Hg b t1) by (done || lia).
    rewrite IH; [done|]. intros k t ? ?. apply Hg; [lia|done].
Qed.

Lemma for_steps_total (g : Z -> list A -> Prop) b e :
  (forall k, b <= k < e -> exists t, g k t) -> exists t, for_steps g b e t.
Proof.
  intros Hg. remember (Z.to_nat (e - b)) as n eqn:Hn.
  revert b Hn Hg. induction n as [|n IH]; intros b Hn Hg.
  - exists []. constructor. lia.
  - destruct (Hg b) as [t1 H1]; [lia|].
    destruct (IH (b + 1)) as [t2 H2]; [lia| |].
    + intros k ?. apply Hg. lia.
    + exists (t1 ++ t2). constructor; [lia|done|done].
Qed.

Lemma parallel_for_Permutation (f : Z -> Z -> list A -> Prop)
    (gs : Z -> list A) lo hi t :
  (forall b e t, lo <= b -> e <= hi -> f b e t ->
                 Permutation t (seqZ b (e - b) ≫= gs)) ->
  parallel_for f lo hi t -> Permutation t (seqZ lo (hi - lo) ≫= gs).
Proof.
  intros Hf Hp.
  induction Hp as [lo hi Hle|lo hi t Hlt Hrun
                  |lo mid hi t1 t2 t Hlo Hhi _ IH1 _ IH2 Hi].
  - rewrite seqZ_nil by lia. done.
  - apply Hf; [lia|lia|done].
  - rewrite (interleave_Permutation _ _ _ Hi).
    rewrite IH1, IH2.
    + replace (hi - lo) with ((mid - lo) + (hi - mid)) by lia.
      rewrite seqZ_app by lia. rewrite bind_app.
      replace (lo + (mid - lo)) with mid by lia. done.
    + intros b e t' ? ?. apply Hf; lia.
    + intros b e t' ? ?. apply Hf; lia.
Qed.
End Steps.

Section RenderFacts.
Context {libm : Libm} {sops : SphereOps}.

Lemma pixel_agree sc width height i j :
  TBB.pixel sc width height i j = CPU.pixel sc width height i j.
Proof. reflexivity. Qed.

Lemma CPU_body_pixel width height i j st img :
  CPU.body width height (CPU.screenRight (camera (scene st)))
    (CPU.screenUp (camera (scene st))) (CPU.step (camera (scene st)) width)
    i j (st, img)
  = (st, match CPU.pixel (scene st) width height i j with
         | Some c => setPixel i j (mkPixel c) img
         | None => img
         end).
Proof.
  unfold CPU.body, CPU.pixel, CPU.pixel_ray.
  destruct (CPU.nearest _ _).2; reflexivity.
Qed.

Lemma TBB_body_pixel width height i j st img :
  TBB.body width height (TBB.screenRight (camera (scene st)))
    (TBB.screenUp (camera (scene st))) (TBB.step (camera (scene st)) width)
    i j (st, img)
  = (st, match TBB.pixel (scene st) width height i j with
         | Some c => setPixel i j (mkPixel c) img
         | None => img
         end).
Proof.
  unfold TBB.body, TBB.pixel, TBB.pixel_ray.
  destruct (TBB.nearest _ _).2; reflexivity.
Qed.

Lemma CPU_loops_paint width height st img :
  for_int 0 width (fun i =>
    for_int 0 height (fun j =>
      CPU.body width height (CPU.screenRight (camera (scene st)))
        (CPU.screenUp (camera (scene st)))
        (CPU.step (camera (scene st)) width) i j))
    (st, img)
  = (st, paint (fun ij => CPU.pixel (scene st) width height ij.1 ij.2) img
               (raster width height)).
Proof.
  rewrite (for_int_nested
             (fun i j => CPU.body width height
                           (CPU.screenRight (camera (scene st)))
                           (CPU.screenUp (camera (scene st)))
                           (CPU.step (camera (scene st)) width) i j)).
  generalize (raster width height) as t.
  intros t. revert img. induction t as [|k t IH]; intros img; [done|].
  cbn [foldl]. rewrite CPU_body_pixel, IH. reflexivity.
Qed.

Lemma TBB_run_paint width height t st img :
  TBB.run width height (TBB.screenRight (camera (scene st)))
    (TBB.screenUp (camera (scene st))) (TBB.step (camera (scene st)) width)
    t (st, img)
  = (st, paint (fun ij => TBB.pixel (scene st) width height ij.1 ij.2) img t).
Proof.
  unfold TBB.run. revert img. induction t as [|k t IH]; intros img; [done|].
  cbn [foldl]. rewrite TBB_body_pixel, IH. reflexivity.
Qed.

Lemma inner_Permutation i b e t :
  TBB.inner i b e t -> Permutation t (seqZ b (e - b) ≫= (fun j => [(i, j)])).
Proof.
  apply for_steps_Permutation. intros k t' _ ->. done.
Qed.

Lemma row_bind height i :
  row height i = seqZ 0 height ≫= (fun j => [(i, j)]).
Proof.
  unfold row. induction (seqZ 0 height) as [|j l IH]; [done|].
  rewrite fmap_cons, bind_cons, IH. done.
Qed.

Lemma schedule_Permutation width height t :
  TBB.schedule width height t -> Permutation t (raster width height).
Proof.
  unfold TBB.schedule, raster. intros Hs.
  rewrite <- (Z.sub_0_r width) at 1.
  eapply parallel_for_Permutation; [|exact Hs].
  intros b e t' _ _ Ho. unfold TBB.outer in Ho.
  eapply for_steps_Permutation; [|exact Ho].
  intros i t'' _ Hp. cbv beta in Hp.
  rewrite row_bind. rewrite <- (Z.sub_0_r height).
  eapply parallel_for_Permutation; [|exact Hp].
  intros b' e' t3 _ _. apply inner_Permutation.
Qed.

Lemma schedule_exists width height : exists t, TBB.schedule width height t.
Proof.
  unfold TBB.schedule.
  destruct (Z_lt_le_dec 0 width) as [Hw|Hw].
  - destruct (for_steps_total
                (fun i t => parallel_for (TBB.inner i) 0 height t) 0 width)
      as [t Ht].
    + intros i _. destruct (Z_lt_le_dec 0 height) as [Hh|Hh].
      * destruct (for_steps_total (fun j t => t = [(i, j)]) 0 height)
          as [t Ht]; [eauto|].
        exists t. apply parallel_for_run; done.
      * exists []. apply parallel_for_empty. done.
    + exists t. apply parallel_for_run; done.
  - exists []. apply parallel_for_empty. done.
Qed.
End RenderFacts.

(** C1: for every image size, camera, sphere list and light list the
    sequential renderer and the data-parallel renderer compute the same
    color for every pixel, and whatever the schedule of the parallel run,
    the two leave the same image in the same file. *)
Theorem renderImage_CPU_TBB_agree `{libm : Libm} `{sops : SphereOps}
    (width height : Z) (path : string) (st : State) :
  (forall i j, CPU.pixel (scene st) width height i j
               = TBB.pixel (scene st) width height i j)
  /\ (exists stTBB, Dispatch.renderImage TBB width height path st stTBB)
  /\ (forall stCPU stTBB,
        Dispatch.renderImage CPU width height path st stCPU ->
        Dispatch.renderImage TBB width height path st stTBB ->
        stCPU = stTBB).
Proof.
  unfold Dispatch.renderImage. cbn [Z.eqb CPU TBB].
  split; [reflexivity|]. split.
  - destruct (schedule_exists width height) as [t Ht].
    eexists. exists t. split; [exact Ht|]. cbv zeta.
    rewrite TBB_run_paint. reflexivity.
  - intros stCPU stTBB -> (t & Hs & Hrun).
    unfold CPU.renderImageCPU. cbv zeta. rewrite CPU_loops_paint.
    cbv zeta in Hrun. rewrite TBB_run_paint in Hrun. subst stTBB.
    f_equal. symmetry. apply paint_Permutation, schedule_Permutation, Hs.
Qed.

Section Scan.
Context {sops : SphereOps}.

Lemma scan_agree r i objs acc : TBB.scan r i objs acc = CPU.scan r i objs acc.
Proof. revert i acc. induction objs; intros; simpl; [done|]. apply IHobjs. Qed.

Lemma nearest_agree r objs : TBB.nearest r objs = CPU.nearest r objs.
Proof. apply scan_agree. Qed.

Lemma scan_app r i l1 l2 acc :
  CPU.scan r i (l1 ++ l2) acc
  = CPU.scan r (i + length l1) l2 (CPU.scan r i l1 acc).
Proof.
  revert i acc. induction l1 as [|s l1 IH]; intros i acc; simpl.
  - by rewrite Nat.add_0_r.
  - rewrite IH. f_equal. lia.
Qed.

(** A step changes nothing when the sphere is missed or not nearer. *)
Lemma scan_step_keep r i s z n :
  (forall d p, intersection s r = (d, Some p) -> PrimFloat.ltb d z = false) ->
  CPU.scan_step r i s (z, n) = (z, n).
Proof.
  intros H. unfold CPU.scan_step.
  destruct (intersection s r) as [d [p|]] eqn:E; simpl; [|done].
  by rewrite (H d p).
Qed.

Lemma scan_keep r i objs z n :
  (forall s d p, s ∈ objs -> intersection s r = (d, Some p) ->
                 PrimFloat.ltb d z = false) ->
  CPU.scan r i objs (z, n) = (z, n).
Proof.
  revert i. induction objs as [|s objs IH]; intros i H; cbn [CPU.scan];
    [done|].
  rewrite scan_step_keep.
  - apply IH. intros s' d p Hin. apply H. by apply list_elem_of_further.
  - intros d p. apply H. apply list_elem_of_here.
Qed.

(** While every sphere met is missed or hit beyond [d], the buffer stays
    beyond [d]. *)
Lemma scan_above r d i objs z n :
  PrimFloat.ltb d z = true ->
  (forall s d' p', s ∈ objs -> intersection s r = (d', Some p') ->
                   PrimFloat.ltb d d' = true) ->
  PrimFloat.ltb d (CPU.scan r i objs (z, n)).1 = true.
Proof.
  revert i z n. induction objs as [|s objs IH]; intros i z n Hz H;
    cbn [CPU.scan]; [done|].
  assert (Hhd : forall d' p', intersection s r = (d', Some p') ->
                              PrimFloat.ltb d d' = true).
  { intros d' p'. apply H, list_elem_of_here. }
  assert (Htl : forall s' d' p', s' ∈ objs ->
                  intersection s' r = (d', Some p') ->
                  PrimFloat.ltb d d' = true).
  { intros s' d' p' Hin. apply H. by apply list_elem_of_further. }
  unfold CPU.scan_step.
  destruct (intersection s r) as [d' [p'|]] eqn:E; cbn [fst snd].
  - destruct (PrimFloat.ltb d' z).
    + apply IH; [|done]. by eapply Hhd.
    + by apply IH.
  - by apply IH.
Qed.

Lemma nearest_none r objs :
  (forall s, s ∈ objs -> (intersection s r).2 = None) ->
  CPU.nearest r objs = (DBL_MAX, None).
Proof.
  intros H. apply scan_keep. intros s d p Hin E.
  specialize (H s Hin). rewrite E in H. done.
Qed.
End Scan.

(** The sphere at index [k], hit at a distance [d] below the initial value
    of the buffer, is the result of the scan when every other sphere that
    is hit is hit strictly farther, or stands later and is hit at an equal
    distance. *)
Lemma nearest_selects `{sops : SphereOps}
    (r : Ray) (objs : list Sphere) (k : nat) (s : Sphere) (d : float)
    (p : Vector4d) :
  objs !! k = Some s ->
  intersection s r = (d, Some p) ->
  PrimFloat.ltb d DBL_MAX = true ->
  (forall j s' d' p',
     objs !! j = Some s' -> intersection s' r = (d', Some p') -> j <> k ->
     PrimFloat.ltb d d' = true \/ ((k < j)%nat /\ PrimFloat.eqb d' d = true)) ->
  CPU.nearest r objs = (d, Some (mkHit k s p))
  /\ TBB.nearest r objs = (d, Some (mkHit k s p)).
Proof.
  intros Hk Hs Hd Hothers.
  enough (HCPU : CPU.nearest r objs = (d, Some (mkHit k s p))).
  { split; [exact HCPU|]. etransitivity; [apply nearest_agree|exact HCPU]. }
  unfold CPU.nearest.
  rewrite <- (take_drop_middle objs k s Hk), scan_app.
  assert (Hlen : length (take k objs) = k).
  { apply length_take_le. apply lookup_lt_Some in Hk. lia. }
  rewrite Hlen. cbn [Nat.add CPU.scan].
  pose proof (scan_above r d 0 (take k objs) DBL_MAX None Hd) as Hpre.
  destruct (CPU.scan r 0 (take k objs) (DBL_MAX, None)) as [z n].
  cbn [fst] in Hpre. unfold CPU.scan_step. rewrite Hs. cbn [fst snd].
  rewrite Hpre.
  - apply scan_keep. intros s' d' p' Hin E.
    apply list_elem_of_lookup in Hin as [j Hj].
    rewrite lookup_drop in Hj.
    destruct (Hothers (S k + j)%nat s' d' p' Hj E) as [Hlt|[_ Heq]]; [lia| |].
    + by apply FloatFacts.ltb_asym.
    + by apply FloatFacts.eqb_not_ltb.
  - intros s' d' p' Hin E.
    apply list_elem_of_lookup in Hin as [j Hj].
    apply lookup_take_Some in Hj as [Hj Hlt].
    destruct (Hothers j s' d' p' Hj E) as [?|[? _]]; [lia|done|lia].
Qed.

(** C4: the scan over the sphere list keeps the hit with the smallest
    distance under the strict comparison [<], from a buffer that starts at
    [DBL_MAX].  For every ray and sphere list: a sphere hit at a distance
    [d < DBL_MAX] is the one selected when every other sphere that is hit
    is hit strictly farther, wherever it stands in the list, or stands
    later in the list and is hit at an equal distance.  In particular, of
    two spheres hit at [d1 < d2] the one at [d1] is selected in either
    order of the list, and of two spheres hit at the same distance the
    first one is kept. *)
Theorem nearest_is_first_strict_minimum `{sops : SphereOps} (r : Ray) :
  (forall (objs : list Sphere) (k : nat) (s : Sphere) (d : float)
          (p : Vector4d),
     objs !! k = Some s ->
     intersection s r = (d, Some p) ->
     PrimFloat.ltb d DBL_MAX = true ->
     (forall j s' d' p',
        objs !! j = Some s' -> intersection s' r = (d', Some p') -> j <> k ->
        PrimFloat.ltb d d' = true
        \/ ((k < j)%nat /\ PrimFloat.eqb d' d = true)) ->
     CPU.nearest r objs = (d, Some (mkHit k s p))
     /\ TBB.nearest r objs = (d, Some (mkHit k s p)))
  /\ (forall (s1 s2 : Sphere) (d1 d2 : float) (p1 p2 : Vector4d),
       intersection s1 r = (d1, Some p1) ->
       intersection s2 r = (d2, Some p2) ->
       PrimFloat.ltb d1 d2 = true ->
       PrimFloat.ltb d1 DBL_MAX = true ->
       CPU.nearest r [s1; s2] = (d1, Some (mkHit 0 s1 p1))
       /\ CPU.nearest r [s2; s1] = (d1, Some (mkHit 1 s1 p1))
       /\ TBB.nearest r [s1; s2] = (d1, Some (mkHit 0 s1 p1))
       /\ TBB.nearest r [s2; s1] = (d1, Some (mkHit 1 s1 p1)))
  /\ (forall (s1 s2 : Sphere) (d1 d2 : float) (p1 p2 : Vector4d),
       intersection s1 r = (d1, Some p1) ->
       intersection s2 r = (d2, Some p2) ->
       PrimFloat.eqb d2 d1 = true ->
       PrimFloat.ltb d1 DBL_MAX = true ->
       CPU.nearest r [s1; s2] = (d1, Some (mkHit 0 s1 p1))
       /\ TBB.nearest r [s1; s2] = (d1, Some (mkHit 0 s1 p1))).
Proof.
  split; [intros; by apply nearest_selects|]. split.
  - intros s1 s2 d1 d2 p1 p2 E1 E2 Hlt Hmax.
    destruct (nearest_selects r [s1; s2] 0 s1 d1 p1) as [HC HT];
      [done|done|done| |].
    { intros [|[|j]] s' d' p' Hj E Hne; simplify_eq/=; try done.
      left. congruence. }
    destruct (nearest_selects r [s2; s1] 1 s1 d1 p1) as [HC' HT'];
      [done|done|done| |].
    { intros [|[|j]] s' d' p' Hj E Hne; simplify_eq/=; try done.
      left. congruence. }
    done.
  - intros s1 s2 d1 d2 p1 p2 E1 E2 Heq Hmax.
    apply (nearest_selects r [s1; s2] 0 s1 d1 p1); [done|done|done|].
    intros [|[|j]] s' d' p' Hj E Hne; simplify_eq/=; try done.
    right. split; [lia|congruence].
Qed.

Lemma wrap32_small z : INT_MIN <= z <= INT_MAX -> wrap32 z = z.
Proof.
  unfold wrap32, INT_MIN, INT_MAX. intros H.
  rewrite Z.mod_small; lia.
Qed.

Lemma int_div_2 n : 0 <= n <= INT_MAX -> int_div n 2 = Z.quot n 2.
Proof.
  intros H. unfold int_div. apply wrap32_small.
  pose proof (Z.quot_pos n 2 ltac:(lia) ltac:(lia)).
  pose proof (Z.quot_le_upper_bound n 2 n ltac:(lia) ltac:(lia)).
  unfold INT_MIN, INT_MAX in *. lia.
Qed.

Lemma offset_exact n k :
  0 <= k < n -> n <= INT_MAX -> int_sub k (int_div n 2) = k - Z.quot n 2.
Proof.
  intros Hk Hn. rewrite int_div_2 by lia. unfold int_sub. apply wrap32_small.
  pose proof (Z.quot_pos n 2 ltac:(lia) ltac:(lia)).
  pose proof (Z.quot_le_upper_bound n 2 n ltac:(lia) ltac:(lia)).
  unfold INT_MIN, INT_MAX in *. lia.
Qed.

(** C5: for every camera, image size and pixel [(i, j)] of the image, the
    ray of the pixel starts at the camera position and has the direction
    [normalize(pointOnScreen - pos)] with
    [pointOnScreen = screenCenter + x*step*screenRight + y*step*screenUp],
    [x = i - width/2], [y = j - height/2] (integer division, no
    wrap-around) and the one [step = tan(fovRad/2) * |centralRay| / (width/2)]
    for both axes; pixel [(width/2, height/2)] has the offsets [(0, 0)], and
    for an even dimension [n] the offsets run from [-n/2] to [n/2 - 1]. *)
Theorem ray_is_generateRay `{libm : Libm}
    (cam : Camera) (width height i j : Z) :
  0 <= i < width -> 0 <= j < height ->
  width <= INT_MAX -> height <= INT_MAX ->
  CPU.pixel_ray cam width height i j = Spec.generateRay cam width height i j
  /\ TBB.pixel_ray cam width height i j = Spec.generateRay cam width height i j
  /\ ray_origin (CPU.pixel_ray cam width height i j) = cam_pos cam
  /\ int_sub (Z.quot width 2) (int_div width 2) = 0
  /\ int_sub (Z.quot height 2) (int_div height 2) = 0
  /\ (Z.even width = true ->
      int_sub 0 (int_div width 2) = - (width / 2)
      /\ int_sub (width - 1) (int_div width 2) = width / 2 - 1)
  /\ (Z.even height = true ->
      int_sub 0 (int_div height 2) = - (height / 2)
      /\ int_sub (height - 1) (int_div height 2) = height / 2 - 1).
Proof.
  intros Hi Hj Hw Hh.
  assert (Hqw : Z.quot width 2 = width / 2) by (apply Z.quot_div_nonneg; lia).
  assert (Hqh : Z.quot height 2 = height / 2) by (apply Z.quot_div_nonneg; lia).
  assert (HCPU : CPU.pixel_ray cam width height i j
                 = Spec.generateRay cam width height i j).
  { unfold CPU.pixel_ray, CPU.ray, Spec.generateRay, CPU.step,
      CPU.step_divisor, CPU.fov, CPU.screenUp, CPU.screenRight,
      CPU.centralRay.
    rewrite !offset_exact, !int_div_2 by lia. reflexivity. }
  split; [exact HCPU|]. split; [exact HCPU|]. split; [reflexivity|].
  assert (Hew : forall n, 0 < n <= INT_MAX -> 0 <= n / 2 < n).
  { intros n Hn. split; [apply Z.div_pos; lia|apply Z.div_lt; lia]. }
  pose proof (Hew width ltac:(lia)). pose proof (Hew height ltac:(lia)).
  repeat split.
  - rewrite offset_exact; lia.
  - rewrite offset_exact; lia.
  - rewrite offset_exact; lia.
  - rewrite offset_exact by lia. rewrite Hqw.
    apply Z.even_spec in H1 as [q ->].
    rewrite (Z.mul_comm 2 q), Z.div_mul; lia.
  - rewrite offset_exact; lia.
  - rewrite offset_exact by lia. rewrite Hqh.
    apply Z.even_spec in H1 as [q ->].
    rewrite (Z.mul_comm 2 q), Z.div_mul; lia.
Qed.

Section Frame.
Context {libm : Libm} {sops : SphereOps}.

Lemma CPU_renderImageCPU_paint width height path st :
  CPU.renderImageCPU width height path st
  = saveToBmp (paint (fun ij => CPU.pixel (scene st) width height ij.1 ij.2)
                     (Image_new width height) (raster width height))
              path st.
Proof.
  unfold CPU.renderImageCPU. cbv zeta. rewrite CPU_loops_paint. reflexivity.
Qed.

Lemma TBB_renderImageTBB_paint width height path st st' :
  TBB.renderImageTBB width height path st st' <->
  exists t, TBB.schedule width height t /\
    st' = saveToBmp (paint (fun ij => TBB.pixel (scene st) width height ij.1 ij.2)
                           (Image_new width height) t)
                    path st.
Proof.
  unfold TBB.renderImageTBB. cbv zeta.
  split; intros (t & Hs & Hrun); exists t; (split; [exact Hs|]).
  - rewrite TBB_run_paint in Hrun. exact Hrun.
  - rewrite TBB_run_paint. exact Hrun.
Qed.

Lemma renderImage_cases mode width height path st st' :
  Dispatch.renderImage mode width height path st st' ->
  (mode = CPU /\ st' = CPU.renderImageCPU width height path st)
  \/ (mode = TBB /\ TBB.renderImageTBB width height path st st')
  \/ (mode <> CPU /\ mode <> TBB /\ st' = cerr_endl "Not implemented yet" st).
Proof.
  unfold Dispatch.renderImage.
  destruct (mode =? CPU) eqn:E1; [apply Z.eqb_eq in E1; auto|].
  destruct (mode =? TBB) eqn:E2; [apply Z.eqb_eq in E2; auto|].
  apply Z.eqb_neq in E1, E2. auto.
Qed.

Lemma pixel_None_of_miss sc width height i j :
  (forall s, s ∈ objs sc ->
     (intersection s (CPU.pixel_ray (camera sc) width height i j)).2 = None) ->
  CPU.pixel sc width height i j = None.
Proof.
  intros H. unfold CPU.pixel. rewrite nearest_none by exact H. reflexivity.
Qed.
End Frame.

(** C6: when the ray of pixel [(i, j)] hits no sphere of the list, the
    loop body of either renderer leaves the image as it is ([setPixel] is
    not called), and in the image that is saved the cell [(i, j)] is one
    that was never set. *)
Theorem missed_pixel_is_never_set `{libm : Libm} `{sops : SphereOps}
    (mode : RenderMode) (width height : Z) (path : string) (st st' : State)
    (i j : Z) :
  mode = CPU \/ mode = TBB ->
  Dispatch.renderImage mode width height path st st' ->
  (forall s, s ∈ objs (scene st) ->
     (intersection s (CPU.pixel_ray (camera (scene st)) width height i j)).2
     = None) ->
  (forall img,
     CPU.body width height (CPU.screenRight (camera (scene st)))
       (CPU.screenUp (camera (scene st))) (CPU.step (camera (scene st)) width)
       i j (st, img) = (st, img)
     /\ TBB.body width height (TBB.screenRight (camera (scene st)))
       (TBB.screenUp (camera (scene st))) (TBB.step (camera (scene st)) width)
       i j (st, img) = (st, img))
  /\ exists img, disk st' !! path = Some img /\ img_pixels img !! (i, j) = None.
Proof.
  intros Hmode Hrun Hmiss.
  pose proof (pixel_None_of_miss _ _ _ _ _ Hmiss) as Hpix.
  split.
  - intros img. split.
    + rewrite CPU_body_pixel, Hpix. done.
    + etransitivity; [apply TBB_body_pixel|].
      assert (HT : TBB.pixel (scene st) width height i j = None)
        by (etransitivity; [apply pixel_agree|exact Hpix]).
      rewrite HT. done.
  - apply renderImage_cases in Hrun as [[_ ->]|[[_ Hrun]|(H1 & H2 & _)]].
    + rewrite CPU_renderImageCPU_paint. eexists. split.
      * cbn [saveToBmp disk]. apply lookup_insert_eq.
      * rewrite paint_lookup. cbn [fst snd]. rewrite Hpix. done.
    + apply TBB_renderImageTBB_paint in Hrun as (t & _ & ->). eexists. split.
      * cbn [saveToBmp disk]. apply lookup_insert_eq.
      * rewrite paint_lookup. cbn [fst snd].
        assert (HT : TBB.pixel (scene st) width height i j = None)
          by (etransitivity; [apply pixel_agree|exact Hpix]).
        rewrite HT. done.
    + destruct Hmode; contradiction.
Qed.

(** C7: with a mode that is neither [CPU] nor [TBB], a call of
    [renderImage] ends in exactly one state: the line "Not implemented yet"
    has been written to the standard error stream, no image was rendered
    and no file was written. *)
Theorem renderImage_unknown_mode `{libm : Libm} `{sops : SphereOps}
    (mode : RenderMode) (width height : Z) (path : string) (st st' : State) :
  mode <> CPU -> mode <> TBB ->
  Dispatch.renderImage mode width height path st st' <->
  st' = mkState (scene st) (cerr st ++ ["Not implemented yet"]) (disk st).
Proof.
  intros H1 H2. unfold Dispatch.renderImage.
  apply Z.eqb_neq in H1, H2. rewrite H1, H2. reflexivity.
Qed.

(** C9: whatever the mode, a call of [renderImage] leaves the camera, the
    sphere list and the light list as they were. *)
Theorem renderImage_preserves_scene `{libm : Libm} `{sops : SphereOps}
    (mode : RenderMode) (width height : Z) (path : string) (st st' : State) :
  Dispatch.renderImage mode width height path st st' ->
  camera (scene st') = camera (scene st)
  /\ objs (scene st') = objs (scene st)
  /\ lights (scene st') = lights (scene st).
Proof.
  intros Hrun.
  enough (scene st' = scene st) as -> by done.
  apply renderImage_cases in Hrun as [[_ ->]|[[_ Hrun]|(_ & _ & ->)]].
  - rewrite CPU_renderImageCPU_paint. reflexivity.
  - apply TBB_renderImageTBB_paint in Hrun as (t & _ & ->). reflexivity.
  - reflexivity.
Qed.

(** C10: for a width between 1 and [INT_MAX], the divisor [(width / 2)] of
    [step] is nonzero, as an [int] and as a [double], for every width of
    at least 2; for width 1 it is 0 and [step] is a quotient by zero. *)
Theorem step_divisor_zero_only_at_width_1 `{libm : Libm}
    (cam : Camera) (width : Z) :
  1 <= width <= INT_MAX ->
  (2 <= width ->
     CPU.step_divisor width <> 0 /\ TBB.step_divisor width <> 0
     /\ PrimFloat.eqb (int2double (CPU.step_divisor width)) 0 = false
     /\ PrimFloat.eqb (int2double (TBB.step_divisor width)) 0 = false)
  /\ (width = 1 ->
     CPU.step_divisor width = 0 /\ TBB.step_divisor width = 0
     /\ CPU.step cam width
        = (tan (CPU.fov cam / 2) * Vec.norm (CPU.centralRay cam) / 0)%float
     /\ TBB.step cam width
        = (tan (TBB.fov cam / 2) * Vec.norm (TBB.centralRay cam) / 0)%float).
Proof.
  intros Hw. split.
  - intros H2. unfold CPU.step_divisor, TBB.step_divisor.
    rewrite int_div_2 by lia.
    assert (Hq : 0 < Z.quot width 2 <= width).
    { rewrite Z.quot_div_nonneg by lia. split.
      - apply Z.div_str_pos. lia.
      - apply Z.div_le_upper_bound; lia. }
    assert (Hf : PrimFloat.eqb (int2double (Z.quot width 2)) 0 = false).
    { apply FloatFacts.int2double_pos_nonzero. unfold INT_MAX in Hw.
      change (2 ^ 53) with 9007199254740992. lia. }
    repeat split; try lia; exact Hf.
  - intros ->. repeat split.
Qed.

(* ===================================================================== *)
(** * The theorems on the concrete scene *)
(* ===================================================================== *)

Section OnSample.
Import Sample.

(** The ray of the centre pixel runs along the view axis and meets the
    sphere of radius 1 centred 5 away at distance 5 - 1. *)
Example centre_pixel_hits_near_sphere :
  CPU.pixel_ray cam 4 4 2 2 = axis_ray
  /\ CPU.nearest (CPU.pixel_ray cam 4 4 2 2) [far_sphere; near_sphere]
     = (4%float, Some (mkHit 1 near_sphere (point 0 0 4))).
Proof. split; reflexivity. Qed.

(** With no light the color is the ambient term. *)
Example shade_without_light :
  Render.calcColor pole viewer unit_sphere [] = gray 0.1.
Proof. reflexivity. Qed.

(** Light and viewer straight above the point: both cosines are 1 and the
    color is [ka*albedo + (kd + ks)*lightColor*albedo]. *)
Example shade_full_highlight :
  Render.calcColor pole (point 0 0 5) unit_sphere [light_a]
  = Col.add (Col.scale 0.1 (gray 1))
            (Col.mul (Col.scale (0.6 + 0.3) (gray 0.5)) (gray 1)).
Proof. reflexivity. Qed.

(** A light behind the surface: the diffuse term is clamped to 0 while the
    reflection vector is built from the cosine -1. *)
Example shade_light_below :
  let N := normalVector unit_sphere pole in
  let L := Vec.normalized (Vec.sub (light_pos light_below) pole) in
  Render.myCos N L false = (-1)%float
  /\ Render.myCos N L true = 0%float
  /\ Render.calcColor pole viewer unit_sphere [light_below] = gray 0.1.
Proof. repeat split. Qed.

(** The cosine is the dot product only for unit vectors: with a normal of
    length 2 the reflection vector is [(0,0,3)], not [2*dot(N,L)*N - L]. *)
Example reflection_of_non_unit_normal :
  let N := mkVec 0 0 2 0 in
  let L := mkVec 0 0 1 0 in
  SpecReflection.with_cosine N L = mkVec 0 0 3 0
  /\ SpecReflection.with_dot N L = mkVec 0 0 7 0.
Proof. split; reflexivity. Qed.

(** On a 2 x 2 image only the centre pixel [(1, 1)] sees a sphere. *)
Example render_2x2 :
  let st := CPU.renderImageCPU 2 2 "out.bmp" state0 in
  (img_pixels <$> disk st !! "out.bmp")
  = Some {[ (1, 1) := mkPixel (mkColor 1.2249999999999999 1.2249999999999999
                                       1.2249999999999999) ]}.
Proof. vm_compute. reflexivity. Qed.

(** With a width of 1 the step is infinite. *)
Example step_of_width_1 : CPU.step cam 1 = infinity.
Proof. reflexivity. Qed.

(** A run of [renderImageTBB] on a 2 x 2 image in which both loops are
    split and the later halves run first. *)
Lemma renderImage_CPU_TBB_agree_witness :
  let t := [(1, 1); (0, 1); (0, 0); (1, 0)] in
  TBB.schedule 2 2 t
  /\ CPU.renderImageCPU 2 2 "out.bmp" state0
     = saveToBmp
         (TBB.run 2 2 (TBB.screenRight cam) (TBB.screenUp cam) (TBB.step cam 2)
                  t (state0, Image_new 2 2)).2
         "out.bmp" state0.
Proof.
  intros t.
  assert (Hleaf : forall i j, parallel_for (TBB.inner i) j (j + 1) [(i, j)]).
  { intros i j. apply parallel_for_run; [lia|].
    apply (for_steps_iter _ j (j + 1) [(i, j)] []);
      [lia|reflexivity|apply for_steps_done; lia]. }
  assert (Hrow : forall i, parallel_for (TBB.inner i) 0 2 [(i, 1); (i, 0)]).
  { intros i. apply (parallel_for_split _ 0 1 2 [(i, 0)] [(i, 1)]);
      [lia|lia|apply (Hleaf i 0)|apply (Hleaf i 1)|].
    apply interleave_r, interleave_l, interleave_nil. }
  assert (Hcol : forall i, parallel_for (TBB.outer 2) i (i + 1) [(i, 1); (i, 0)]).
  { intros i. apply parallel_for_run; [lia|].
    apply (for_steps_iter _ i (i + 1) [(i, 1); (i, 0)] []);
      [lia|apply Hrow|apply for_steps_done; lia]. }
  assert (Hs : TBB.schedule 2 2 t).
  { apply (parallel_for_split _ 0 1 2 [(0, 1); (0, 0)] [(1, 1); (1, 0)]);
      [lia|lia|apply (Hcol 0)|apply (Hcol 1)|].
    apply interleave_r, interleave_l, interleave_l, interleave_r,
      interleave_nil. }
  split; [exact Hs|].
  apply (proj2 (proj2 (renderImage_CPU_TBB_agree 2 2 "out.bmp" state0))).
  - reflexivity.
  - exists t. split; [exact Hs|]. vm_compute. reflexivity.
Defined.

Lemma calcColor_permutes_contributions_witness :
  Permutation
    (map (Spec.contribution Sample.pole Sample.viewer Sample.unit_sphere)
         [Sample.light_a; Sample.light_b])
    (map (Spec.contribution Sample.pole Sample.viewer Sample.unit_sphere)
         [Sample.light_b; Sample.light_a]).
Proof.
  apply (calcColor_permutes_contributions Sample.pole Sample.viewer
           Sample.unit_sphere [Sample.light_a; Sample.light_b]
           [Sample.light_b; Sample.light_a]).
  apply perm_swap.
Defined.

Lemma nearest_is_first_strict_minimum_witness :
  CPU.nearest axis_ray [far_sphere; near_sphere; twin_sphere]
    = (4%float, Some (mkHit 1 near_sphere (point 0 0 4)))
  /\ TBB.nearest axis_ray [far_sphere; near_sphere; twin_sphere]
    = (4%float, Some (mkHit 1 near_sphere (point 0 0 4))).
Proof.
  apply (proj1 (nearest_is_first_strict_minimum axis_ray)
           [far_sphere; near_sphere; twin_sphere] 1%nat near_sphere 4%float
           (point 0 0 4)).
  - reflexivity.
  - reflexivity.
  - reflexivity.
  - intros j s' d' p' Hj E Hne.
    destruct j as [|[|[|j]]]; cbn in Hj; try discriminate Hj.
    + left. injection Hj as <-. vm_compute in E. injection E as <- _.
      reflexivity.
    + exfalso. apply Hne. reflexivity.
    + right. injection Hj as <-. vm_compute in E. injection E as <- _.
      split; [lia|reflexivity].
Defined.

Lemma ray_is_generateRay_witness :
  CPU.pixel_ray cam 4 4 2 2 = Spec.generateRay cam 4 4 2 2
  /\ ray_dir (CPU.pixel_ray cam 4 4 2 2) = mkVec 0 0 1 0.
Proof.
  split; [|reflexivity].
  apply (ray_is_generateRay cam 4 4 2 2); unfold INT_MAX; lia.
Defined.

Lemma missed_pixel_is_never_set_witness :
  exists img,
    disk (CPU.renderImageCPU 2 2 "out.bmp" state0) !! "out.bmp" = Some img
    /\ img_pixels img !! (0, 0) = None.
Proof.
  apply (missed_pixel_is_never_set CPU 2 2 "out.bmp" state0
           (CPU.renderImageCPU 2 2 "out.bmp" state0) 0 0).
  - left. reflexivity.
  - reflexivity.
  - intros s Hs. cbn in Hs.
    apply elem_of_cons in Hs as [->|Hs]; [reflexivity|].
    apply elem_of_cons in Hs as [->|Hs]; [reflexivity|].
    apply elem_of_nil in Hs. destruct Hs.
Defined.

Lemma renderImage_unknown_mode_witness :
  Dispatch.renderImage 2 4 4 "out.bmp" state0
    (mkState scene0 ["Not implemented yet"] ∅).
Proof.
  apply (renderImage_unknown_mode 2 4 4 "out.bmp" state0).
  - discriminate.
  - discriminate.
  - reflexivity.
Defined.

Lemma renderImage_preserves_scene_witness :
  camera (scene (CPU.renderImageCPU 2 2 "out.bmp" state0)) = cam.
Proof.
  apply (renderImage_preserves_scene CPU 2 2 "out.bmp" state0
           (CPU.renderImageCPU 2 2 "out.bmp" state0)).
  reflexivity.
Defined.

Lemma step_divisor_zero_only_at_width_1_witness :
  CPU.step_divisor 1 = 0 /\ CPU.step cam 1 = infinity.
Proof.
  assert (H : 1 <= 1 <= INT_MAX) by (unfold INT_MAX; lia).
  destruct (proj2 (step_divisor_zero_only_at_width_1 cam 1 H) eq_refl)
    as (H1 & _ & H2 & _).
  split; [exact H1|]. rewrite H2. reflexivity.
Defined.

End OnSample.

(* ===================================================================== *)
(** * Further properties of the code *)
(* ===================================================================== *)

(** * Zeros, infinities and NaN in binary64 arithmetic *)
Module NaNFacts.

Lemma Prim2SF_nan (x : float) : Prim2SF x = S754_nan -> x = nan.
Proof. intros H. apply Prim2SF_inj. rewrite H. reflexivity. Qed.

Lemma is_zero_spec (x : float) :
  Fl.is_zero x = true -> exists s, Prim2SF x = S754_zero s.
Proof.
  unfold Fl.is_zero. rewrite FloatAxioms.eqb_spec.
  change (Prim2SF 0) with (S754_zero false).
  destruct (Prim2SF x) as [s|s| |s m e]; simpl; try destruct s;
    try discriminate; eauto.
Qed.

Lemma zero_or_nan_of_zero (x : float) :
  Fl.is_zero x = true -> Fl.zero_or_nan x = true.
Proof.
  intros [s H]%is_zero_spec. unfold Fl.zero_or_nan. rewrite H. reflexivity.
Qed.

Lemma mul_zero_l (x y : float) :
  Fl.is_zero x = true -> Fl.zero_or_nan (x * y) = true.
Proof.
  intros [s H]%is_zero_spec. unfold Fl.zero_or_nan.
  rewrite FloatAxioms.mul_spec, H. destruct (Prim2SF y); reflexivity.
Qed.

Lemma mul_zero_r (x y : float) :
  Fl.is_zero y = true -> Fl.zero_or_nan (x * y) = true.
Proof.
  intros [s H]%is_zero_spec. unfold Fl.zero_or_nan.
  rewrite FloatAxioms.mul_spec, H. destruct (Prim2SF x); reflexivity.
Qed.

Lemma mul_zero_zero (x y : float) :
  Fl.is_zero x = true -> Fl.is_zero y = true ->
  exists s, Prim2SF (x * y) = S754_zero s.
Proof.
  intros [s H]%is_zero_spec [s' H']%is_zero_spec.
  rewrite FloatAxioms.mul_spec, H, H'. simpl. eauto.
Qed.

Lemma add_zero_or_nan (x y : float) :
  Fl.zero_or_nan x = true -> Fl.zero_or_nan y = true ->
  Fl.zero_or_nan (x + y) = true.
Proof.
  unfold Fl.zero_or_nan. rewrite FloatAxioms.add_spec.
  destruct (Prim2SF x) as [s|s| |s m e], (Prim2SF y) as [s'|s'| |s' m' e'];
    try discriminate; intros _ _; try reflexivity.
  destruct s, s'; reflexivity.
Qed.

Lemma add_zero_zero (x y : float) :
  (exists s, Prim2SF x = S754_zero s) -> (exists s, Prim2SF y = S754_zero s) ->
  exists s, Prim2SF (x + y) = S754_zero s.
Proof.
  intros [s H] [s' H']. rewrite FloatAxioms.add_spec, H, H'.
  destruct s, s'; simpl; eauto.
Qed.

Lemma sqrt_zero (x : float) :
  (exists s, Prim2SF x = S754_zero s) -> Fl.is_zero (PrimFloat.sqrt x) = true.
Proof.
  intros [s H]. unfold Fl.is_zero.
  rewrite FloatAxioms.eqb_spec, FloatAxioms.sqrt_spec, H. destruct s; reflexivity.
Qed.

Lemma div_by_zero_nan (x y : float) :
  Fl.zero_or_nan x = true -> Fl.is_zero y = true -> (x / y)%float = nan.
Proof.
  unfold Fl.zero_or_nan. intros Hx [s Hy]%is_zero_spec.
  apply Prim2SF_nan. rewrite FloatAxioms.div_spec, Hy.
  destruct (Prim2SF x); try discriminate; reflexivity.
Qed.

Lemma div_zero_or_nan (x y : float) :
  Fl.zero_or_nan x = true -> Fl.zero_or_nan (x / y) = true.
Proof.
  unfold Fl.zero_or_nan. rewrite FloatAxioms.div_spec.
  destruct (Prim2SF x), (Prim2SF y); try discriminate; reflexivity.
Qed.

Lemma div_nan_l (y : float) : (nan / y)%float = nan.
Proof.
  apply Prim2SF_nan. rewrite FloatAxioms.div_spec.
  change (Prim2SF nan) with S754_nan. reflexivity.
Qed.

Lemma mul_nan_l (y : float) : (nan * y)%float = nan.
Proof.
  apply Prim2SF_nan. rewrite FloatAxioms.mul_spec.
  change (Prim2SF nan) with S754_nan. reflexivity.
Qed.

Lemma mul_nan_r (x : float) : (x * nan)%float = nan.
Proof.
  apply Prim2SF_nan. rewrite FloatAxioms.mul_spec.
  change (Prim2SF nan) with S754_nan. destruct (Prim2SF x); reflexivity.
Qed.

Lemma add_nan_l (y : float) : (nan + y)%float = nan.
Proof.
  apply Prim2SF_nan. rewrite FloatAxioms.add_spec.
  change (Prim2SF nan) with S754_nan. reflexivity.
Qed.

Lemma add_nan_r (x : float) : (x + nan)%float = nan.
Proof.
  apply Prim2SF_nan. rewrite FloatAxioms.add_spec.
  change (Prim2SF nan) with S754_nan. destruct (Prim2SF x); reflexivity.
Qed.

Lemma sub_nan_l (y : float) : (nan - y)%float = nan.
Proof.
  apply Prim2SF_nan. rewrite FloatAxioms.sub_spec.
  change (Prim2SF nan) with S754_nan. reflexivity.
Qed.

(** Any quotient by zero is an infinity or a NaN. *)
Lemma div_by_zero_inf_or_nan (x : float) : Fl.inf_or_nan (x / 0) = true.
Proof.
  unfold Fl.inf_or_nan. rewrite FloatAxioms.div_spec.
  change (Prim2SF 0) with (S754_zero false).
  destruct (Prim2SF x); reflexivity.
Qed.

Lemma mul_zero_inf_or_nan (y : float) :
  Fl.inf_or_nan y = true -> (0 * y)%float = nan.
Proof.
  unfold Fl.inf_or_nan. intros H. apply Prim2SF_nan. rewrite FloatAxioms.mul_spec.
  change (Prim2SF 0) with (S754_zero false).
  destruct (Prim2SF y); try discriminate; reflexivity.
Qed.

Lemma finite_spec (x : float) :
  Fl.finite x = true ->
  (exists s, Prim2SF x = S754_zero s)
  \/ (exists s m e, Prim2SF x = S754_finite s m e).
Proof.
  unfold Fl.finite. rewrite FloatAxioms.ltb_spec, FloatAxioms.abs_spec.
  change (Prim2SF infinity) with (S754_infinity false).
  destruct (Prim2SF x) as [s|s| |s m e]; simpl; try discriminate; eauto.
Qed.

(** A finite double minus itself is [+0]. *)
Lemma sub_diag_finite (x : float) : Fl.finite x = true -> (x - x)%float = 0%float.
Proof.
  intros H. apply Prim2SF_inj. rewrite FloatAxioms.sub_spec.
  change (Prim2SF 0) with (S754_zero false).
  destruct (finite_spec x H) as [[s ->]|(s & m & e & ->)].
  - destruct s; reflexivity.
  - unfold SF64sub, SFsub. rewrite Z.sub_diag. reflexivity.
Qed.

End NaNFacts.

Section DegenerateShading.
Context {libm : Libm} {sops : SphereOps}.
Import NaNFacts.

Lemma zero_vector_coeffs v :
  zero_vector v = true ->
  Fl.is_zero (vx v) = true /\ Fl.is_zero (vy v) = true
  /\ Fl.is_zero (vz v) = true /\ Fl.is_zero (vw v) = true.
Proof.
  unfold zero_vector. rewrite !andb_true_iff. tauto.
Qed.

Lemma norm_zero_vector v : zero_vector v = true -> Fl.is_zero (Vec.norm v) = true.
Proof.
  intros (Hx & Hy & Hz & Hw)%zero_vector_coeffs.
  unfold Vec.norm, Vec.squaredNorm, Vec.dot.
  apply sqrt_zero. repeat apply add_zero_zero; by apply mul_zero_zero.
Qed.

Lemma dot_zero_vector_l a b :
  zero_vector a = true -> Fl.zero_or_nan (Vec.dot a b) = true.
Proof.
  intros (Hx & Hy & Hz & Hw)%zero_vector_coeffs. unfold Vec.dot.
  repeat apply add_zero_or_nan; by apply mul_zero_l.
Qed.

Lemma dot_zero_vector_r a b :
  zero_vector b = true -> Fl.zero_or_nan (Vec.dot a b) = true.
Proof.
  intros (Hx & Hy & Hz & Hw)%zero_vector_coeffs. unfold Vec.dot.
  repeat apply add_zero_or_nan; by apply mul_zero_r.
Qed.

Lemma myCos_zero_l a b cut : zero_vector a = true -> Render.myCos a b cut = nan.
Proof.
  intros Ha. unfold Render.myCos. cbv zeta.
  rewrite (div_by_zero_nan (Vec.dot a b) (Vec.norm a))
    by auto using dot_zero_vector_l, norm_zero_vector.
  rewrite div_nan_l. destruct cut; reflexivity.
Qed.

Lemma myCos_zero_r a b cut : zero_vector b = true -> Render.myCos a b cut = nan.
Proof.
  intros Hb. unfold Render.myCos. cbv zeta.
  rewrite (div_by_zero_nan (Vec.dot a b / Vec.norm a) (Vec.norm b))
    by auto using div_zero_or_nan, dot_zero_vector_r, norm_zero_vector.
  destruct cut; reflexivity.
Qed.

Lemma add_nan_color_r c : Col.add c nan_color = nan_color.
Proof. unfold Col.add, nan_color. cbn. by rewrite !add_nan_r. Qed.

Lemma add_nan_color_l c : Col.add nan_color c = nan_color.
Proof. unfold Col.add, nan_color. cbn. by rewrite !add_nan_l. Qed.

Lemma sub_diag_finite_vector p :
  finite_vector p = true -> Vec.sub p p = mkVec 0 0 0 0.
Proof.
  unfold finite_vector. rewrite !andb_true_iff. intros [[[Hx Hy] Hz] Hw].
  unfold Vec.sub. by rewrite !sub_diag_finite.
Qed.

(** A light at the shaded point turns the accumulated color into NaN. *)
Lemma calcColor_step_coincident p v s N c light :
  finite_vector p = true -> light_pos light = p ->
  Render.calcColor_step p v s N c light = nan_color.
Proof.
  intros Hp Hl. unfold Render.calcColor_step. cbv zeta.
  rewrite Hl, (sub_diag_finite_vector p Hp).
  change (Vec.normalized (mkVec 0 0 0 0)) with (mkVec 0 0 0 0).
  rewrite (myCos_zero_r N (mkVec 0 0 0 0) true) by reflexivity.
  rewrite mul_nan_r, add_nan_l.
  unfold Col.scale, Col.mul. cbn [cr cg cb]. rewrite !mul_nan_l.
  apply add_nan_color_r.
Qed.

Lemma calcColor_step_nan p v s N light :
  Render.calcColor_step p v s N nan_color light = nan_color.
Proof. unfold Render.calcColor_step. cbv zeta. apply add_nan_color_l. Qed.

Lemma calcColor_loop_nan p v s N lights :
  Render.calcColor_loop p v s N lights nan_color = nan_color.
Proof.
  induction lights as [|l lights IH]; [done|].
  cbn [Render.calcColor_loop]. by rewrite calcColor_step_nan.
Qed.
End DegenerateShading.

(** X8: when one of the two vectors has only zero coefficients (of either
    sign), [myCos] returns NaN, with or without [cut]: the quotient is
    0/0, and the clamp [cos < 0.0] does not catch a NaN, which is neither
    below nor at least 0. *)
Theorem myCos_of_zero_vector_is_nan (a b : Vector4d) (cut : bool) :
  zero_vector a = true \/ zero_vector b = true ->
  Render.myCos a b cut = nan
  /\ PrimFloat.ltb (Render.myCos a b cut) 0 = false
  /\ PrimFloat.leb 0 (Render.myCos a b cut) = false.
Proof.
  intros H.
  assert (E : Render.myCos a b cut = nan)
    by (destruct H; [by apply myCos_zero_l|by apply myCos_zero_r]).
  rewrite E. repeat split.
Qed.

Lemma myCos_of_zero_vector_is_nan_witness :
  Render.myCos (mkVec 0 (-0) 0 0) (mkVec 1 2 3 0) true = nan.
Proof.
  apply (myCos_of_zero_vector_is_nan (mkVec 0 (-0) 0 0) (mkVec 1 2 3 0) true).
  left. reflexivity.
Defined.

(** X9: when one light of the list lies exactly at the shaded point (of
    finite coordinates), [calcColor] returns NaN in all three channels,
    whatever the sphere, the viewer and the other lights are: the light
    direction is the zero vector, its cosine is NaN, and NaN absorbs every
    later sum. *)
Theorem calcColor_light_at_point_is_nan `{libm : Libm} `{sops : SphereOps}
    (sectionPoint cameraPos : Vector4d) (s : Sphere) (lights : list Light)
    (light : Light) :
  finite_vector sectionPoint = true ->
  light ∈ lights ->
  light_pos light = sectionPoint ->
  Render.calcColor sectionPoint cameraPos s lights = nan_color.
Proof.
  intros Hp Hin Hl. unfold Render.calcColor. cbv zeta.
  generalize (Col.scale Render.ka (getColor s)) as c.
  induction lights as [|l lights IH]; intros c.
  - by apply elem_of_nil in Hin.
  - cbn [Render.calcColor_loop].
    apply elem_of_cons in Hin as [<-|Hin].
    + rewrite calcColor_step_coincident by done. apply calcColor_loop_nan.
    + by apply IH.
Qed.

Section DegenerateRay.
Context {libm : Libm}.
Import NaNFacts.

Lemma scale_nan v : Vec.scale nan v = nan_vector.
Proof. unfold Vec.scale, nan_vector. by rewrite !mul_nan_l. Qed.

Lemma vec_add_nan_r a : Vec.add a nan_vector = nan_vector.
Proof. unfold Vec.add, nan_vector. cbn. by rewrite !add_nan_r. Qed.

Lemma vec_add_nan_l a : Vec.add nan_vector a = nan_vector.
Proof. unfold Vec.add, nan_vector. cbn. by rewrite !add_nan_l. Qed.

Lemma vec_sub_nan_l a : Vec.sub nan_vector a = nan_vector.
Proof. unfold Vec.sub, nan_vector. cbn. by rewrite !sub_nan_l. Qed.

Lemma ray_of_nan_offset cam width height sr su stp i j :
  (int2double (int_sub i (int_div width 2)) * stp)%float = nan ->
  CPU.ray cam width height sr su stp i j = mkRay (cam_pos cam) nan_vector.
Proof.
  intros H. unfold CPU.ray. cbv zeta.
  rewrite H, scale_nan, vec_add_nan_r, vec_add_nan_l, vec_sub_nan_l.
  reflexivity.
Qed.
End DegenerateRay.

(** X10: in an image of width 1 the ray of every pixel [(0, j)] has the
    camera position as origin and NaN in all four coefficients of its
    direction, whatever the camera: [step] is a quotient by 0, so an
    infinity or a NaN, and it is multiplied by the offset [x = 0]. *)
Theorem rays_of_width_1_are_nan `{libm : Libm}
    (cam : Camera) (height j : Z) :
  CPU.pixel_ray cam 1 height 0 j = mkRay (cam_pos cam) nan_vector
  /\ TBB.pixel_ray cam 1 height 0 j = mkRay (cam_pos cam) nan_vector.
Proof.
  assert (H : CPU.pixel_ray cam 1 height 0 j = mkRay (cam_pos cam) nan_vector).
  { unfold CPU.pixel_ray. apply ray_of_nan_offset.
    change (int2double (int_sub 0 (int_div 1 2))) with 0%float.
    unfold CPU.step.
    change (int2double (CPU.step_divisor 1)) with 0%float.
    apply NaNFacts.mul_zero_inf_or_nan, NaNFacts.div_by_zero_inf_or_nan. }
  split; exact H.
Qed.

Module OrderFacts.
Lemma SFleb_ltb_trans f g h :
  SFleb f g = true -> SFltb g h = true -> SFltb f h = true.
Proof.
  unfold SFleb, SFltb.
  destruct f as [s|s| |s m e], g as [s'|s'| |s' m' e'],
           h as [s''|s''| |s'' m'' e'']; simpl;
    try destruct s; try destruct s'; try destruct s'';
    try congruence;
    change (Pos.compare_cont Eq) with Pos.compare;
    destruct (Z.compare_spec e e'), (Z.compare_spec e' e''),
             (Z.compare_spec e e'');
    try congruence; try lia; subst;
    destruct (Pos.compare_spec m m'), (Pos.compare_spec m' m''),
             (Pos.compare_spec m m'');
    simpl; try congruence; try lia.
Qed.

Lemma leb_ltb_trans (x y z : float) :
  PrimFloat.leb x y = true -> PrimFloat.ltb y z = true ->
  PrimFloat.ltb x z = true.
Proof.
  rewrite FloatAxioms.leb_spec, !FloatAxioms.ltb_spec. apply SFleb_ltb_trans.
Qed.
End OrderFacts.


Section ScanSoundFacts.
Context {sops : SphereOps}.

Lemma nearest_snoc r l s :
  CPU.nearest r (l ++ [s]) = CPU.scan_step r (length l) s (CPU.nearest r l).
Proof. unfold CPU.nearest. rewrite scan_app. reflexivity. Qed.

Lemma lookup_snoc_cases (l : list Sphere) (s s' : Sphere) (j : nat) :
  (l ++ [s]) !! j = Some s' ->
  ((j < length l)%nat /\ l !! j = Some s') \/ (j = length l /\ s' = s).
Proof.
  intros H. apply lookup_app_Some in H as [H|[Hle H]].
  - left. split; [by eapply lookup_lt_Some|done].
  - right. destruct (j - length l)%nat as [|k] eqn:E; simplify_eq/=.
    split; [lia|done].
Qed.

Lemma nearest_inv r objs : scan_inv r objs (CPU.nearest r objs).
Proof.
  induction objs as [|s l IH] using rev_ind.
  - split; [intros j s d p Hj; by rewrite lookup_nil in Hj|done].
  - rewrite nearest_snoc. destruct (CPU.nearest r l) as [z n].
    destruct IH as [IH1 IH2]. cbn [fst snd] in IH1, IH2.
    assert (Hz : n = None /\ z = DBL_MAX \/ PrimFloat.ltb z DBL_MAX = true).
    { destruct n as [h|]; [right; tauto|left; done]. }
    unfold CPU.scan_step.
    destruct (intersection s r) as [d [p|]] eqn:E; cbn [fst snd].
    + destruct (PrimFloat.ltb d z) eqn:Hlt.
      * split; cbn [fst snd hit_index hit_sphere hit_point].
        -- intros j s' d' p' [[Hj Hl]|[-> ->]]%lookup_snoc_cases E'.
           ++ destruct (PrimFloat.ltb d' d) eqn:Hd'; [|done].
              rewrite <- (IH1 j s' d' p' Hl E').
              symmetry. by eapply FloatFacts.ltb_trans.
           ++ rewrite E in E'. simplify_eq. apply FloatFacts.ltb_irrefl.
        -- split; [apply list_lookup_middle; done|].
           split; [done|]. split.
           ++ destruct Hz as [[_ ->]|Hz]; [done|].
              by eapply FloatFacts.ltb_trans.
           ++ intros j s' d' p' Hj Hl E'.
              apply lookup_snoc_cases in Hl as [[_ Hl]|[-> _]]; [|lia].
              destruct (PrimFloat.leb d' d) eqn:Hd'; [|done].
              rewrite <- (IH1 j s' d' p' Hl E').
              symmetry. by eapply OrderFacts.leb_ltb_trans.
      * split; cbn [fst snd].
        -- intros j s' d' p' [[Hj Hl]|[-> ->]]%lookup_snoc_cases E'.
           ++ by eapply IH1.
           ++ rewrite E in E'. by simplify_eq.
        -- destruct n as [h|]; [|done].
           destruct IH2 as (H1 & H2 & H3 & H4).
           split; [by apply lookup_app_l_Some|].
           split; [done|]. split; [done|].
           intros j s' d' p' Hj Hl E'.
           apply lookup_lt_Some in H1.
           apply lookup_snoc_cases in Hl as [[_ Hl]|[-> _]]; [|lia].
           by eapply H4.
    + split; cbn [fst snd].
      * intros j s' d' p' [[Hj Hl]|[-> ->]]%lookup_snoc_cases E'.
        -- by eapply IH1.
        -- rewrite E in E'. by simplify_eq.
      * destruct n as [h|]; [|done].
        destruct IH2 as (H1 & H2 & H3 & H4).
        split; [by apply lookup_app_l_Some|].
        split; [done|]. split; [done|].
        intros j s' d' p' Hj Hl E'.
        apply lookup_lt_Some in H1.
        apply lookup_snoc_cases in Hl as [[_ Hl]|[-> _]]; [|lia].
        by eapply H4.
Qed.
End ScanSoundFacts.

(** X1: when the scan of the sphere list ends with a sphere selected, that
    sphere is the one at the returned index of the list, the ray hits it at
    the returned distance and point, the distance is below [DBL_MAX], no
    sphere of the list is hit strictly nearer, and no sphere before it in
    the list is hit as near. *)
Theorem nearest_returns_a_minimal_hit `{sops : SphereOps}
    (r : Ray) (objs : list Sphere) (z : float) (h : Hit) :
  CPU.nearest r objs = (z, Some h) ->
  TBB.nearest r objs = (z, Some h)
  /\ objs !! hit_index h = Some (hit_sphere h)
  /\ intersection (hit_sphere h) r = (z, Some (hit_point h))
  /\ PrimFloat.ltb z DBL_MAX = true
  /\ (forall j s d p,
        objs !! j = Some s -> intersection s r = (d, Some p) ->
        PrimFloat.ltb d z = false)
  /\ (forall j s d p,
        (j < hit_index h)%nat ->
        objs !! j = Some s -> intersection s r = (d, Some p) ->
        PrimFloat.leb d z = false).
Proof.
  intros H. pose proof (nearest_inv r objs) as [H1 H2].
  rewrite H in H1, H2. cbn [fst snd] in H1, H2.
  destruct H2 as (H2 & H3 & H4 & H5).
  split; [etransitivity; [apply nearest_agree|exact H]|]. tauto.
Qed.

(** X2: the scan ends with no sphere selected ([nearestSphere] still
    [nullptr]) exactly when no sphere of the list is hit at a distance
    strictly below [DBL_MAX]; the buffer is then still [DBL_MAX].  A hit at
    [DBL_MAX], at infinity or at NaN is treated as a miss. *)
Theorem nearest_is_null_iff_no_hit_below_max `{sops : SphereOps}
    (r : Ray) (objs : list Sphere) :
  ((CPU.nearest r objs).2 = None <->
   forall s d p, s ∈ objs -> intersection s r = (d, Some p) ->
                 PrimFloat.ltb d DBL_MAX = false)
  /\ ((CPU.nearest r objs).2 = None -> CPU.nearest r objs = (DBL_MAX, None))
  /\ TBB.nearest r objs = CPU.nearest r objs.
Proof.
  pose proof (nearest_inv r objs) as [H1 H2].
  split; [split|split].
  - intros Hn s d p [j Hj]%list_elem_of_lookup E.
    rewrite Hn in H2. rewrite <- H2. by eapply H1.
  - intros H. unfold CPU.nearest. by rewrite scan_keep.
  - intros Hn. rewrite Hn in H2.
    destruct (CPU.nearest r objs) as [z n]. simplify_eq/=. done.
  - apply nearest_agree.
Qed.

Section Raster.
Lemma elem_of_raster width height i j :
  (i, j) ∈ raster width height <-> 0 <= i < width /\ 0 <= j < height.
Proof.
  unfold raster, row. rewrite list_elem_of_bind. split.
  - intros (i' & Hj & Hi). apply list_elem_of_fmap in Hj as (j' & Heq & Hj).
    simplify_eq. apply elem_of_seqZ in Hi, Hj. lia.
  - intros [Hi Hj]. exists i. split.
    + apply list_elem_of_fmap. exists j. split; [done|].
      apply elem_of_seqZ. lia.
    + apply elem_of_seqZ. lia.
Qed.

Lemma in_image_raster width height ij :
  in_image width height ij = true <-> ij ∈ raster width height.
Proof.
  destruct ij as [i j]. rewrite elem_of_raster. unfold in_image.
  cbn [fst snd]. rewrite !andb_true_iff, !Z.leb_le, !Z.ltb_lt. tauto.
Qed.

Lemma NoDup_raster width height : NoDup (raster width height).
Proof.
  unfold raster. apply NoDup_bind.
  - intros i1 i2 [i j] _ _ H1 H2. unfold row in *.
    apply list_elem_of_fmap in H1 as (? & ? & _).
    apply list_elem_of_fmap in H2 as (? & ? & _). congruence.
  - intros i _. unfold row. apply NoDup_fmap_2; [|apply NoDup_seqZ].
    intros j1 j2. congruence.
  - apply NoDup_seqZ.
Qed.

Lemma length_raster width height :
  length (raster width height) = (Z.to_nat width * Z.to_nat height)%nat.
Proof.
  unfold raster. rewrite <- (length_seqZ 0 width).
  induction (seqZ 0 width) as [|i l IH]; [done|].
  rewrite bind_cons, length_app, IH. unfold row at 1.
  rewrite length_fmap, length_seqZ. simpl. lia.
Qed.

Lemma raster_empty width height :
  width <= 0 \/ height <= 0 -> raster width height = [].
Proof.
  intros H. apply length_zero_iff_nil. rewrite length_raster.
  destruct H; [replace (Z.to_nat width) with 0%nat by lia
              |replace (Z.to_nat height) with 0%nat by lia]; lia.
Qed.
End Raster.

Section RenderResult.
Context {libm : Libm} {sops : SphereOps}.

(** The image both renderers leave: the raster painted with the colors of
    the pixels. *)
Lemma renderImage_result mode width height path st st' :
  mode = CPU \/ mode = TBB ->
  Dispatch.renderImage mode width height path st st' ->
  st' = saveToBmp
          (paint (fun ij => CPU.pixel (scene st) width height ij.1 ij.2)
                 (Image_new width height) (raster width height))
          path st.
Proof.
  intros Hmode Hrun.
  apply renderImage_cases in Hrun as [[_ ->]|[[_ Hrun]|(H1 & H2 & _)]].
  - apply CPU_renderImageCPU_paint.
  - apply TBB_renderImageTBB_paint in Hrun as (t & Hs & ->).
    f_equal. apply paint_Permutation, schedule_Permutation, Hs.
  - destruct Hmode; contradiction.
Qed.

End RenderResult.

(** X3: after a CPU or TBB render the file at [path] holds an image of the
    requested width and height in which a cell [(i, j)] is set exactly
    when [0 <= i < width], [0 <= j < height] and the ray of the pixel
    selects a sphere, and then to the color [calcColor] gives; no cell
    outside the image is ever set. *)
Theorem rendered_image_cells `{libm : Libm} `{sops : SphereOps}
    (mode : RenderMode) (width height : Z) (path : string) (st st' : State) :
  mode = CPU \/ mode = TBB ->
  Dispatch.renderImage mode width height path st st' ->
  exists img,
    disk st' !! path = Some img
    /\ img_width img = width /\ img_height img = height
    /\ forall i j,
         img_pixels img !! (i, j)
         = if in_image width height (i, j)
           then mkPixel <$> CPU.pixel (scene st) width height i j
           else None.
Proof.
  intros Hmode Hrun. rewrite (renderImage_result _ _ _ _ _ _ Hmode Hrun).
  eexists. split; [apply lookup_insert_eq|].
  split; [apply paint_dims|]. split; [apply paint_dims|].
  intros i j. rewrite paint_lookup. cbn [fst snd].
  destruct (in_image width height (i, j)) eqn:Hin.
  - apply in_image_raster in Hin.
    destruct (CPU.pixel _ _ _ _ _); [|done]. by rewrite decide_True.
  - assert (Hn : (i, j) ∉ raster width height).
    { intros H%in_image_raster. congruence. }
    destruct (CPU.pixel _ _ _ _ _); [|done]. by rewrite decide_False.
Qed.

(** X4: a CPU or TBB render writes nothing to the standard error stream
    and changes no file other than the one at [path]. *)
Theorem renderImage_writes_only_path `{libm : Libm} `{sops : SphereOps}
    (mode : RenderMode) (width height : Z) (path : string) (st st' : State) :
  mode = CPU \/ mode = TBB ->
  Dispatch.renderImage mode width height path st st' ->
  cerr st' = cerr st
  /\ delete path (disk st') = delete path (disk st)
  /\ forall path', path' <> path -> disk st' !! path' = disk st !! path'.
Proof.
  intros Hmode Hrun. rewrite (renderImage_result _ _ _ _ _ _ Hmode Hrun).
  cbn [saveToBmp cerr disk]. split; [done|]. split.
  - apply delete_insert_eq.
  - intros path' Hne. by apply lookup_insert_ne.
Qed.

(** X5: rendering a second time into the same file, with the same or the
    other of the two strategies, changes nothing: the state after the
    second call is the state after the first. *)
Theorem renderImage_twice `{libm : Libm} `{sops : SphereOps}
    (mode1 mode2 : RenderMode) (width height : Z) (path : string)
    (st st1 st2 : State) :
  mode1 = CPU \/ mode1 = TBB -> mode2 = CPU \/ mode2 = TBB ->
  Dispatch.renderImage mode1 width height path st st1 ->
  Dispatch.renderImage mode2 width height path st1 st2 ->
  st2 = st1.
Proof.
  intros H1 H2 Hr1 Hr2.
  rewrite (renderImage_result _ _ _ _ _ _ H2 Hr2).
  rewrite (renderImage_result _ _ _ _ _ _ H1 Hr1).
  unfold saveToBmp. cbn [scene cerr disk]. by rewrite insert_insert_eq.
Qed.

(** X6: with [width <= 0] or [height <= 0] the loops run no iteration (a
    parallel run has no step): the image is saved as it was created, with
    no cell set. *)
Theorem renderImage_of_empty_image `{libm : Libm} `{sops : SphereOps}
    (mode : RenderMode) (width height : Z) (path : string) (st st' : State) :
  width <= 0 \/ height <= 0 ->
  mode = CPU \/ mode = TBB ->
  Dispatch.renderImage mode width height path st st' ->
  st' = saveToBmp (Image_new width height) path st
  /\ (mode = TBB -> forall t, TBB.schedule width height t -> t = []).
Proof.
  intros Hdim Hmode Hrun. split.
  - rewrite (renderImage_result _ _ _ _ _ _ Hmode Hrun).
    by rewrite raster_empty.
  - intros _ t Ht%schedule_Permutation.
    rewrite raster_empty in Ht by done. by apply Permutation_nil_r.
Qed.

(** X7: every run of the two nested [parallel_for] executes the loop body
    exactly once for each pixel [(i, j)] with [0 <= i < width] and
    [0 <= j < height], and for no other pair. *)
Theorem schedule_visits_each_pixel_once (width height : Z) (t : list (Z * Z)) :
  TBB.schedule width height t ->
  NoDup t
  /\ (forall i j, (i, j) ∈ t <-> 0 <= i < width /\ 0 <= j < height)
  /\ length t = (Z.to_nat width * Z.to_nat height)%nat.
Proof.
  intros Hs%schedule_Permutation. split; [|split].
  - rewrite Hs. apply NoDup_raster.
  - intros i j. rewrite Hs. apply elem_of_raster.
  - rewrite Hs. apply length_raster.
Qed.

Section EmptyScene.
Context {libm : Libm} {sops : SphereOps}.

Lemma paint_nothing (f : Z * Z -> option Color) img t :
  (forall k, f k = None) -> paint f img t = img.
Proof.
  intros Hf. unfold paint. induction t as [|k t IH]; [done|].
  cbn [foldl]. by rewrite Hf.
Qed.
End EmptyScene.

(** X11: with an empty sphere list a CPU or TBB render saves the image as
    it was created, with no cell set, whatever the camera and the lights. *)
Theorem renderImage_of_empty_scene `{libm : Libm} `{sops : SphereOps}
    (mode : RenderMode) (width height : Z) (path : string) (st st' : State) :
  objs (scene st) = [] ->
  mode = CPU \/ mode = TBB ->
  Dispatch.renderImage mode width height path st st' ->
  st' = saveToBmp (Image_new width height) path st.
Proof.
  intros Hobjs Hmode Hrun.
  rewrite (renderImage_result _ _ _ _ _ _ Hmode Hrun).
  rewrite paint_nothing; [done|].
  intros k. unfold CPU.pixel. by rewrite Hobjs.
Qed.

(** X12: with an empty light list, every cell a CPU or TBB render sets
    holds the ambient color [ka * albedo] (ka = 0.1) of a sphere of the
    list, the one the scan selects for the ray of that pixel. *)
Theorem renderImage_without_lights `{libm : Libm} `{sops : SphereOps}
    (mode : RenderMode) (width height : Z) (path : string) (st st' : State)
    (img : Image) (i j : Z) (px : Pixel) :
  lights (scene st) = [] ->
  mode = CPU \/ mode = TBB ->
  Dispatch.renderImage mode width height path st st' ->
  disk st' !! path = Some img ->
  img_pixels img !! (i, j) = Some px ->
  exists z h,
    CPU.nearest (CPU.pixel_ray (camera (scene st)) width height i j)
                (objs (scene st)) = (z, Some h)
    /\ hit_sphere h ∈ objs (scene st)
    /\ pixel_color px = Col.scale 0.1 (getColor (hit_sphere h)).
Proof.
  intros Hl Hmode Hrun Himg Hpx.
  rewrite (renderImage_result _ _ _ _ _ _ Hmode Hrun) in Himg.
  cbn [saveToBmp disk] in Himg. rewrite lookup_insert_eq in Himg.
  injection Himg as <-. rewrite paint_lookup in Hpx. cbn [fst snd] in Hpx.
  unfold CPU.pixel in Hpx.
  pose proof (nearest_inv
                (CPU.pixel_ray (camera (scene st)) width height i j)
                (objs (scene st))) as [_ Hinv].
  destruct (CPU.nearest _ _) as [z [h|]]; cbn [fst snd] in Hpx, Hinv.
  - exists z, h. split; [done|]. destruct Hinv as (Hin & _). split.
    + by eapply list_elem_of_lookup_2.
    + rewrite Hl in Hpx. case_decide; [|done]. by injection Hpx as <-.
  - done.
Qed.

(* ===================================================================== *)
(** * The further properties on the concrete scene *)
(* ===================================================================== *)

Section OnSampleMore.
Import Sample.

Lemma nearest_returns_a_minimal_hit_witness :
  CPU.nearest axis_ray [far_sphere; near_sphere; twin_sphere]
    = (4%float, Some (mkHit 1 near_sphere (point 0 0 4)))
  /\ forall j s d p,
       [far_sphere; near_sphere; twin_sphere] !! j = Some s ->
       intersection s axis_ray = (d, Some p) ->
       PrimFloat.ltb d 4 = false.
Proof.
  assert (H : CPU.nearest axis_ray [far_sphere; near_sphere; twin_sphere]
              = (4%float, Some (mkHit 1 near_sphere (point 0 0 4))))
    by reflexivity.
  split; [exact H|].
  exact (proj1 (proj2 (proj2 (proj2 (proj2
    (nearest_returns_a_minimal_hit axis_ray
       [far_sphere; near_sphere; twin_sphere] 4%float
       (mkHit 1 near_sphere (point 0 0 4)) H)))))).
Defined.

Lemma rendered_image_cells_witness :
  exists img,
    disk (CPU.renderImageCPU 2 2 "out.bmp" state0) !! "out.bmp" = Some img
    /\ img_width img = 2 /\ img_height img = 2
    /\ forall i j,
         img_pixels img !! (i, j)
         = if in_image 2 2 (i, j)
           then mkPixel <$> CPU.pixel (scene state0) 2 2 i j
           else None.
Proof.
  apply (rendered_image_cells CPU 2 2 "out.bmp" state0
           (CPU.renderImageCPU 2 2 "out.bmp" state0)).
  - left. reflexivity.
  - reflexivity.
Defined.

Lemma renderImage_writes_only_path_witness :
  cerr (CPU.renderImageCPU 2 2 "out.bmp" state0) = [].
Proof.
  apply (renderImage_writes_only_path CPU 2 2 "out.bmp" state0
           (CPU.renderImageCPU 2 2 "out.bmp" state0)).
  - left. reflexivity.
  - reflexivity.
Defined.

Lemma renderImage_twice_witness :
  CPU.renderImageCPU 2 2 "out.bmp" (CPU.renderImageCPU 2 2 "out.bmp" state0)
  = CPU.renderImageCPU 2 2 "out.bmp" state0.
Proof.
  apply (renderImage_twice CPU CPU 2 2 "out.bmp" state0).
  - left. reflexivity.
  - left. reflexivity.
  - reflexivity.
  - reflexivity.
Defined.

Lemma renderImage_of_empty_image_witness :
  CPU.renderImageCPU 0 5 "out.bmp" state0
  = saveToBmp (Image_new 0 5) "out.bmp" state0.
Proof.
  apply (renderImage_of_empty_image CPU 0 5 "out.bmp" state0
           (CPU.renderImageCPU 0 5 "out.bmp" state0)).
  - left. lia.
  - left. reflexivity.
  - reflexivity.
Defined.

Lemma schedule_visits_each_pixel_once_witness :
  NoDup [(0, 0); (0, 1); (1, 0); (1, 1)]
  /\ length [(0, 0); (0, 1); (1, 0); (1, 1)] = 4%nat.
Proof.
  assert (Hrow : forall i, parallel_for (TBB.inner i) 0 2 [(i, 0); (i, 1)]).
  { intros i. apply parallel_for_run; [lia|].
    apply (for_steps_iter _ 0 2 [(i, 0)] [(i, 1)]); [lia|reflexivity|].
    apply (for_steps_iter _ 1 2 [(i, 1)] []); [lia|reflexivity|].
    apply for_steps_done. lia. }
  assert (Hs : TBB.schedule 2 2 [(0, 0); (0, 1); (1, 0); (1, 1)]).
  { apply parallel_for_run; [lia|].
    apply (for_steps_iter _ 0 2 [(0, 0); (0, 1)] [(1, 0); (1, 1)]);
      [lia|apply Hrow|].
    apply (for_steps_iter _ 1 2 [(1, 0); (1, 1)] []); [lia|apply Hrow|].
    apply for_steps_done. lia. }
  destruct (schedule_visits_each_pixel_once 2 2 _ Hs) as (H1 & _ & H2).
  split; [exact H1|exact H2].
Defined.

Lemma calcColor_light_at_point_is_nan_witness :
  Render.calcColor pole viewer unit_sphere [light_a; Edge.light_at_pole]
  = nan_color.
Proof.
  apply (calcColor_light_at_point_is_nan pole viewer unit_sphere
           [light_a; Edge.light_at_pole] Edge.light_at_pole).
  - reflexivity.
  - apply list_elem_of_further, list_elem_of_here.
  - reflexivity.
Defined.

Lemma renderImage_of_empty_scene_witness :
  CPU.renderImageCPU 2 2 "out.bmp" Edge.empty_state
  = saveToBmp (Image_new 2 2) "out.bmp" Edge.empty_state.
Proof.
  apply (renderImage_of_empty_scene CPU 2 2 "out.bmp" Edge.empty_state
           (CPU.renderImageCPU 2 2 "out.bmp" Edge.empty_state)).
  - reflexivity.
  - left. reflexivity.
  - reflexivity.
Defined.
Lemma renderImage_without_lights_witness :
  exists z h,
    CPU.nearest (CPU.pixel_ray cam 2 2 1 1) [far_sphere; near_sphere]
      = (z, Some h)
    /\ hit_sphere h ∈ [far_sphere; near_sphere]
    /\ gray 0.1 = Col.scale 0.1 (getColor (hit_sphere h)).
Proof.
  apply (renderImage_without_lights CPU 2 2 "out.bmp" Edge.dark_state
           (CPU.renderImageCPU 2 2 "out.bmp" Edge.dark_state)
           (mkImage 2 2 {[ (1, 1) := mkPixel (gray 0.1) ]}) 1 1
           (mkPixel (gray 0.1))).
  - reflexivity.
  - left. reflexivity.
  - reflexivity.
  - vm_compute. reflexivity.
  - vm_compute. reflexivity.
Defined.
End OnSampleMore.
